(** * Sudoku solver by simulated annealing: a shallow embedding

    The development follows the two source files of the repository.

    - [sudoku.py]: the [Board] class (grid, fixed mask, group views,
      guarded writes).
    - [sudoku_solver.py]: the cost model, the row-wise initial fill, the
      move selector, the swap and the annealing loop.

    Modelling conventions.

    - A cell value is a Python [int], here [Z].  A coordinate is a pair of
      indices in the range 0..8 of the data model, here [nat * nat]
      (Python's negative indices are outside the model).
    - A grid is a list of rows that are distinct list objects, as built
      by the reader and by the default constructor; two rows of one grid
      never share storage.
    - Python mutates the board in place and may raise half-way: code that
      writes is a state-and-exception computation [M S A], whose final
      state is kept also when an exception is raised.
    - [random] is a tape of natural numbers, one entry consumed by each
      call into the generator; a computation that needs a draw from an
      empty tape is [Starved].
    - A Python [float] is an IEEE 754 binary64 number, here a primitive
      float, with the processor's own division, product and comparison.
      [math.exp] is the exponential of the platform's C library and not
      code of the repository: the one test that calls it takes it as a
      parameter.
    - [print] is a diagnostic side channel and is left out. *)

From Stdlib Require Import List ZArith Lia Bool Arith Permutation FinFun.
From Stdlib Require PrimFloat SpecFloat FloatOps.
Import ListNotations.

Set Implicit Arguments.

(** ** Outcomes of partial Python code *)

Inductive exn : Type :=
| IndexError
| KeyError
| ValueError
| StopIteration
| ZeroDivisionError
| OverflowError.

Inductive outcome (A : Type) : Type :=
| Ok (a : A)
| Raise (e : exn)
| Starved.

Arguments Ok {A} a.
Arguments Raise {A} e.
Arguments Starved {A}.

Definition obind {A B : Type} (o : outcome A) (f : A -> outcome B) : outcome B :=
  match o with
  | Ok a => f a
  | Raise e => Raise e
  | Starved => Starved
  end.

Notation "'let?' x ':=' e 'in' k" := (obind e (fun x => k))
  (at level 10, x pattern, e at level 100, k at level 200).

(** A list comprehension whose element expression may raise. *)
Fixpoint omap {A B : Type} (f : A -> outcome B) (l : list A) : outcome (list B) :=
  match l with
  | [] => Ok []
  | x :: t =>
      let? y := f x in
      let? ys := omap f t in
      Ok (y :: ys)
  end.

(** [l[i]] for a non-negative index. *)
Definition item {A : Type} (l : list A) (i : nat) : outcome A :=
  match nth_error l i with
  | Some x => Ok x
  | None => Raise IndexError
  end.

(** [l[i] = v] for a non-negative index. *)
Fixpoint setitem {A : Type} (l : list A) (i : nat) (v : A) : outcome (list A) :=
  match l, i with
  | [], _ => Raise IndexError
  | _ :: t, O => Ok (v :: t)
  | x :: t, S j => let? t' := setitem t j v in Ok (x :: t')
  end.

(** ** State and exceptions *)

Definition M (S A : Type) : Type := S -> outcome A * S.

Definition ret {S A : Type} (a : A) : M S A := fun s => (Ok a, s).

Definition raise {S A : Type} (e : exn) : M S A := fun s => (Raise e, s).

Definition bind {S A B : Type} (m : M S A) (f : A -> M S B) : M S B :=
  fun s =>
    match m s with
    | (Ok a, s') => f a s'
    | (Raise e, s') => (Raise e, s')
    | (Starved, s') => (Starved, s')
    end.

(** A read-only method call. *)
Definition read {S A : Type} (f : S -> outcome A) : M S A := fun s => (f s, s).

Declare Scope monad_scope.
Delimit Scope monad_scope with monad.
Notation "x <- e ;; k" := (bind e (fun x => k))
  (at level 61, e at next level, right associativity) : monad_scope.
Notation "' pat <- e ;; k" := (bind e (fun x => match x with pat => k end))
  (at level 61, pat pattern, e at next level, right associativity) : monad_scope.
Notation "e ;; k" := (bind e (fun _ => k))
  (at level 61, right associativity) : monad_scope.

(** A [for] loop whose body may write and raise. *)
Fixpoint for_each {S A : Type} (l : list A) (body : A -> M S unit) : M S unit :=
  match l with
  | [] => ret tt
  | x :: t => bind (body x) (fun _ => for_each t body)
  end.

(** ** sudoku.py *)

Definition coord : Type := (nat * nat)%type.

Definition coord_eqb (a b : coord) : bool :=
  (fst a =? fst b)%nat && (snd a =? snd b)%nat.

(** [range(0, 9, 3)] and [range(3)]. *)
Definition range_0_9_3 : list nat := [0; 3; 6]%nat.
Definition range9 : list nat := seq 0 9.

Definition get_box_coordinates : list (list coord) :=
  flat_map (fun i =>
    map (fun j =>
      flat_map (fun m => map (fun n => ((i + m)%nat, (j + n)%nat)) (seq 0 3)) (seq 0 3))
      range_0_9_3)
    range_0_9_3.

Record Board : Type := mkBoard {
  grid : list (list Z);
  fixed_cells : list (list bool)
}.

(** [bool(cell)] *)
Definition truthy (cell : Z) : bool := negb (cell =? 0)%Z.

Definition empty_grid : list (list Z) := repeat (repeat 0%Z 9) 9.

(** [Board.__init__]: [initial_grid or ...] takes the default for [None]
    and for the empty list. *)
Definition Board_init (initial_grid : option (list (list Z))) : Board :=
  let g := match initial_grid with
           | Some (r :: rs) => r :: rs
           | _ => empty_grid
           end in
  mkBoard g (map (map truthy) g).

Definition get_rows (b : Board) : list (list Z) := grid b.

(** [zip] over the unpacked rows: as many tuples as the shortest row has entries, none for
    no rows. *)
Definition zip_star (rows : list (list Z)) : list (list Z) :=
  match rows with
  | [] => []
  | r0 :: rest =>
      let n := fold_left Nat.min (map (@length Z) rest) (length r0) in
      map (fun j => map (fun row => nth j row 0%Z) rows) (seq 0 n)
  end.

Definition get_columns (b : Board) : list (list Z) := zip_star (grid b).

Definition get_value (b : Board) (row col : nat) : outcome Z :=
  let? r := item (grid b) row in item r col.

Definition get_boxes (b : Board) : outcome (list (list Z)) :=
  omap (fun box => omap (fun rc : coord => get_value b (fst rc) (snd rc)) box)
       get_box_coordinates.

(** [len(elements) == len(set(elements))] over the nonzero entries. *)
Definition is_valid_group (group : list Z) : bool :=
  let elements := filter (fun num => negb (num =? 0)%Z) group in
  (length elements =? length (nodup Z.eq_dec elements))%nat.

Definition is_valid (b : Board) : outcome bool :=
  let rows := get_rows b in
  let cols := get_columns b in
  let? boxes := get_boxes b in
  Ok (forallb is_valid_group (rows ++ cols ++ boxes)).

Definition is_cell_fixed (b : Board) (row col : nat) : outcome bool :=
  let? r := item (fixed_cells b) row in item r col.

(** [self.grid[row][col] = value] *)
Definition store (row col : nat) (value : Z) : M Board unit :=
  fun b =>
    match (let? r := item (grid b) row in
           let? r' := setitem r col value in
           setitem (grid b) row r') with
    | Ok g' => (Ok tt, mkBoard g' (fixed_cells b))
    | Raise e => (Raise e, b)
    | Starved => (Starved, b)
    end.

Open Scope monad_scope.

Definition set_value (row col : nat) (value : Z) : M Board unit :=
  f <- read (fun b => is_cell_fixed b row col) ;;
  if negb f then store row col value else ret tt.

Definition copy_board (b : Board) : Board :=
  Board_init (Some (map (fun row => row) (grid b))).

Definition get_modifiable_coordinates (b : Board) : outcome (list coord) :=
  let? rows :=
    omap (fun r =>
      let? keep := omap (fun c => let? f := is_cell_fixed b r c in Ok (negb f, (r, c))) range9 in
      Ok (map snd (filter fst keep)))
      range9 in
  Ok (concat rows).

Definition reset : M Board unit :=
  coords <- read get_modifiable_coordinates ;;
  for_each coords (fun rc => store (fst rc) (snd rc) 0%Z).

(** ** sudoku_solver.py: the cost model *)

(** [collections.Counter]: value and count, in order of first occurrence. *)
Fixpoint Counter_add (v : Z) (counts : list (Z * Z)) : list (Z * Z) :=
  match counts with
  | [] => [(v, 1%Z)]
  | (k, n) :: t => if (k =? v)%Z then (k, (n + 1)%Z) :: t else (k, n) :: Counter_add v t
  end.

Definition Counter (group : list Z) : list (Z * Z) :=
  fold_left (fun counts v => Counter_add v counts) group [].

Definition sum (l : list Z) : Z := fold_left Z.add l 0%Z.

Definition group_cost (group : list Z) : Z :=
  sum (map (fun item : Z * Z =>
              let (num, count) := item in
              if negb (num =? 0)%Z then (count - 1)%Z else count)
           (Counter group)).

Definition cost_function (b : Board) : outcome Z :=
  let total_cost := fold_left (fun t row => (t + group_cost row)%Z) (get_rows b) 0%Z in
  let total_cost := fold_left (fun t col => (t + group_cost col)%Z) (get_columns b) total_cost in
  let? boxes := get_boxes b in
  Ok (fold_left (fun t box => (t + group_cost box)%Z) boxes total_cost).

(** [group.count(value)] *)
Definition count (group : list Z) (value : Z) : Z :=
  Z.of_nat (count_occ Z.eq_dec group value).

(** [next(box for box in box_coords if (row, col) in box)] *)
Definition next_box (rc : coord) : outcome (list coord) :=
  match find (fun box => existsb (coord_eqb rc) box) get_box_coordinates with
  | Some box => Ok box
  | None => Raise StopIteration
  end.

Definition coordinate_cost (b : Board) (row col : nat) : outcome Z :=
  let? value := get_value b row col in
  if (value =? 0)%Z then Ok 1%Z
  else
    let group_coordinate_cost := fun group => (count group value - 1)%Z in
    let? row_group := item (get_rows b) row in
    let? col_group := item (get_columns b) col in
    let? box := next_box (row, col) in
    let? box_group := omap (fun rc : coord => get_value b (fst rc) (snd rc)) box in
    Ok (group_coordinate_cost row_group
        + group_coordinate_cost col_group
        + group_coordinate_cost box_group)%Z.

(** ** sudoku_solver.py: the initial fill *)

(** [set(range(1, 10)) - set(row_values)], kept as the ascending list of
    its elements. *)
Definition missing_of (row_values : list Z) : list Z :=
  filter (fun d => negb (existsb (Z.eqb d) row_values))
         (map Z.of_nat (seq 1 9)).

Fixpoint remove_nth {A : Type} (i : nat) (l : list A) : list A :=
  match l, i with
  | [], _ => []
  | _ :: t, O => t
  | x :: t, S j => x :: remove_nth j t
  end.

Definition swap_values (coord1 coord2 : coord) : M Board unit :=
  let (row1, col1) := coord1 in
  let (row2, col2) := coord2 in
  val1 <- read (fun b => get_value b row1 col1) ;;
  val2 <- read (fun b => get_value b row2 col2) ;;
  set_value row1 col1 val2 ;;
  set_value row2 col2 val1.

(** ** sudoku_solver.py: the random source and the move selector *)

Record World : Type := mkWorld {
  board : Board;
  tape : list nat
}.

Definition on_board {A : Type} (m : M Board A) : M World A :=
  fun w => let (r, b') := m (board w) in (r, mkWorld b' (tape w)).

(** One call into the generator. *)
Definition draw : M World nat :=
  fun w =>
    match tape w with
    | [] => (Starved, w)
    | u :: t => (Ok u, mkWorld (board w) t)
    end.

(** ** Python floats *)

(** The float nearest to an int, ties to even, and an infinity when
    that float would be beyond the largest finite one. *)
Definition nearest_float (x : Z) : PrimFloat.float :=
  FloatOps.SF2Prim
    (SpecFloat.binary_normalize FloatOps.prec FloatOps.emax x 0 false).

(** The ints whose nearest float is finite: half a unit in the last
    place above the largest float, [2 ** 1024 - 2 ** 971], rounds up. *)
Definition in_float_range (x : Z) : bool :=
  (Z.abs x <? 2 ^ 1024 - 2 ^ 970)%Z.

(** An int operand of a float operation, as in [x + 0.0] or [x / T], is
    converted first: [OverflowError] when it is too large. *)
Definition float_of_int (x : Z) : outcome PrimFloat.float :=
  if in_float_range x then Ok (nearest_float x) else Raise OverflowError.

(** [random.random()]: the draw [u] is the 53-bit integer the generator
    assembles, which it scales by [2 ** -53]; the result is in [0, 1). *)
Definition random_random (u : nat) : PrimFloat.float :=
  PrimFloat.mul (nearest_float (Z.of_nat u mod 2 ^ 53))
                (PrimFloat.div PrimFloat.one (nearest_float (2 ^ 53))).

(** [itertools.accumulate] *)
Fixpoint accumulate (acc : Z) (weights : list Z) : list Z :=
  match weights with
  | [] => []
  | x :: t => (acc + x)%Z :: accumulate (acc + x)%Z t
  end.

(** The loop of [bisect.bisect_right(a, x, lo, hi)]: halve the
    interval until it is empty.  Every round shrinks [hi - lo], so
    [hi - lo] rounds of [fuel] see it empty; [mid] stays below [hi], and
    the default of [nth] is never read when [hi] is within the list. *)
Fixpoint bisect_loop (fuel : nat) (a : list Z) (x : Z) (lo hi : nat) : nat :=
  match fuel with
  | O => lo
  | S fuel' =>
      if (lo <? hi)%nat then
        let mid := ((lo + hi) / 2)%nat in
        if (x <? nth mid a 0)%Z then bisect_loop fuel' a x lo mid
        else bisect_loop fuel' a x (S mid) hi
      else lo
  end.

Definition bisect (a : list Z) (x : Z) (lo hi : nat) : nat :=
  bisect_loop (hi - lo) a x lo hi.

(** [random.choices(population, weights=weights, k=1)[0]].  The weights
    are ints, so the only float is [total = cum_weights[-1] + 0.0]; it
    is at most 0.0 exactly when the int is at most 0.  The draw [u]
    stands for the integer part of [random() * total], a number below
    the total, which is all the comparisons of the bisection with ints
    depend on.  (A total above [2 ** 53] need not be a float, and the
    product can then reach it; the costs of a board stay far below.) *)
Definition random_choices (population : list coord) (weights : list Z) : M World coord :=
  let n := length population in
  let cum_weights := accumulate 0%Z weights in
  if negb (length cum_weights =? n)%nat then raise ValueError
  else
    match rev cum_weights with
    | [] => raise IndexError
    | total :: _ =>
        if negb (in_float_range total) then raise OverflowError
        else if (total <=? 0)%Z then raise ValueError
        else
          u <- draw ;;
          read (fun _ => item population
                           (bisect cum_weights (Z.of_nat u mod total)%Z 0 (n - 1)))
    end.

(** [random.choice(seq)] *)
Definition random_choice (population : list coord) : M World coord :=
  match population with
  | [] => raise IndexError
  | _ =>
      u <- draw ;;
      read (fun _ => item population (u mod length population)%nat)
  end.

(** [while True]: every round of the loops below consumes a draw or
    leaves the loop, so a loop entered with more fuel than the tape has
    entries never runs out of fuel before it runs out of tape. *)
Fixpoint while_true {S A : Type} (fuel : nat) (body : M S (option A)) : M S A :=
  match fuel with
  | O => fun s => (Starved, s)
  | S n =>
      r <- body ;;
      match r with
      | Some a => ret a
      | None => while_true n body
      end
  end.

Definition forever {A : Type} (body : M World (option A)) : M World A :=
  fun w => while_true (S (length (tape w))) body w.

(** Lines 97-100: the second algorithm. *)
Definition uniform_different (coords : list coord) (coord1 : coord)
  : M World (coord * coord) :=
  forever (
    coord2 <- random_choice coords ;;
    v2 <- on_board (read (fun b => get_value b (fst coord2) (snd coord2))) ;;
    v1 <- on_board (read (fun b => get_value b (fst coord1) (snd coord1))) ;;
    if negb (v2 =? v1)%Z then ret (Some (coord1, coord2)) else ret None).

(** One round of the outer [while True] of [select_coordinates]. *)
Definition select_round (coords : list coord) (weights : list Z)
  : M World (option (coord * coord)) :=
  coord1 <- random_choices coords weights ;;
  let (row1, col1) := coord1 in
  let row_coords :=
    map (fun col => (row1, col))
        (filter (fun col => negb (col =? col1)%nat
                            && existsb (coord_eqb (row1, col)) coords) range9) in
  match row_coords with
  | _ :: _ =>
      coord2 <- random_choice row_coords ;;
      ret (Some (coord1, coord2))
  | [] =>
      pair <- uniform_different coords coord1 ;;
      ret (Some pair)
  end.

(** [coord_costs] is the dictionary as its items in insertion order. *)
Definition select_coordinates (coord_costs : list (coord * Z)) : M World (coord * coord) :=
  let coords := map fst coord_costs in
  let weights := map snd coord_costs in
  forever (select_round coords weights).

(** The dictionary of costs the solver builds in a round. *)
Definition coord_costs_of (b : Board) (modifiable_coords : list coord)
  : outcome (list (coord * Z)) :=
  omap (fun rc : coord =>
          let? c := coordinate_cost b (fst rc) (snd rc) in Ok (rc, c))
       modifiable_coords.

(** ** sudoku_solver.py: the annealing loop *)

Section Annealing.

(** [set.pop()] removes an arbitrary element: which one is left open,
    as the index [pop_choice s mod len(s)] into the ascending list. *)
Variable pop_choice : list Z -> nat.

(** The loop is written once for any type of temperatures, with its
    product [T * decay], and for any acceptance test on the draw [u],
    the cost difference and the temperature: what holds of the loop
    whatever the test decides is proved for all of them.  The test of
    the program, [random.random() < math.exp(-delta_cost / T)] on
    floats, is [acceptance_test] below, and the program is the loop at
    that test, [sudoku_solver]. *)
Variable Temp : Type.
Variable Tmul : Temp -> Temp -> Temp.
Variable metropolis : nat -> Z -> Temp -> outcome bool.

Definition set_pop (s : list Z) : outcome (Z * list Z) :=
  match s with
  | [] => Raise KeyError
  | _ =>
      let i := (pop_choice s mod length s)%nat in
      Ok (nth i s 0%Z, remove_nth i s)
  end.

(** The inner [for col_idx in range(9)], threading the local set. *)
Fixpoint fill_row (row_idx : nat) (cols : list nat) (missing_numbers : list Z)
  : M Board unit :=
  match cols with
  | [] => ret tt
  | col_idx :: rest =>
      v <- read (fun b => get_value b row_idx col_idx) ;;
      if (v =? 0)%Z then
        '(x, missing') <- read (fun _ => set_pop missing_numbers) ;;
        set_value row_idx col_idx x ;;
        fill_row row_idx rest missing'
      else fill_row row_idx rest missing_numbers
  end.

(** [rows] aliases the grid, so [row_values] is the row as it is when
    its turn comes. *)
Definition initialise_board : M Board unit :=
  n <- read (fun b => Ok (length (get_rows b))) ;;
  for_each (seq 0 n) (fun row_idx =>
    row_values <- read (fun b => item (get_rows b) row_idx) ;;
    fill_row row_idx range9 (missing_of row_values)).

Record annealing : Type := mkAnnealing {
  T : Temp;
  current_cost : Z;
  min_cost : Z;
  iterations : Z;
  stagnation_counter : Z
}.

(** Lines 125-134: swap, rescore, accept or revert; the value is the
    new [current_cost]. *)
Definition propose (coord1 coord2 : coord) (st : annealing) : M World Z :=
  on_board (swap_values coord1 coord2) ;;
  new_cost <- on_board (read cost_function) ;;
  let delta_cost := (new_cost - current_cost st)%Z in
  accepted <- (if (delta_cost <? 0)%Z then ret true
               else u <- draw ;; read (fun _ => metropolis u delta_cost (T st))) ;;
  if accepted : bool then ret new_cost
  else on_board (swap_values coord1 coord2) ;; ret (current_cost st).

(** Lines 136-150. *)
Definition cool (T_initial : Temp) (max_stagnation : Z) (decay : Temp)
           (st : annealing) (cost : Z) : annealing :=
  let '(min_cost1, stagnation1) :=
    if (cost <? min_cost st)%Z then (cost, 0%Z)
    else (min_cost st, (stagnation_counter st + 1)%Z) in
  if (stagnation1 >=? max_stagnation)%Z
  then mkAnnealing T_initial cost cost (iterations st + 1)%Z 0%Z
  else mkAnnealing (Tmul (T st) decay) cost min_cost1 (iterations st + 1)%Z stagnation1.

Definition iteration (T_initial : Temp) (max_stagnation : Z) (decay : Temp)
           (modifiable_coords : list coord) (st : annealing) : M World annealing :=
  coord_costs <- on_board (read (fun b => coord_costs_of b modifiable_coords)) ;;
  '(coord1, coord2) <- select_coordinates coord_costs ;;
  cost <- propose coord1 coord2 st ;;
  ret (cool T_initial max_stagnation decay st cost).

(** The [while] loop; [budget] bounds the rounds still possible, since
    [iterations] grows by one per round. *)
Fixpoint loop (budget : nat) (T_initial : Temp) (max_iterations max_stagnation : Z)
         (decay : Temp) (modifiable_coords : list coord) (st : annealing)
  : M World annealing :=
  if (current_cost st >? 0)%Z && (iterations st <? max_iterations)%Z then
    match budget with
    | O => fun w => (Starved, w)
    | S n =>
        st' <- iteration T_initial max_stagnation decay modifiable_coords st ;;
        loop n T_initial max_iterations max_stagnation decay modifiable_coords st'
    end
  else ret st.

(** [solver] up to its [return]. *)
Definition anneal (T0 : Temp) (max_iterations max_stagnation : Z) (decay : Temp)
  : M World annealing :=
  on_board initialise_board ;;
  cost <- on_board (read cost_function) ;;
  modifiable_coords <- on_board (read get_modifiable_coordinates) ;;
  loop (Z.to_nat max_iterations) T0 max_iterations max_stagnation decay
       modifiable_coords (mkAnnealing T0 cost cost 0%Z 0%Z).

Definition solver (T0 : Temp) (max_iterations max_stagnation : Z) (decay : Temp)
  : M World bool :=
  st <- anneal T0 max_iterations max_stagnation decay ;;
  ret (current_cost st =? 0)%Z.

(** A call a client can make on a board. *)
Inductive call : Type :=
| CallSetValue (row col : nat) (value : Z)
| CallSwapValues (coord1 coord2 : coord)
| CallReset
| CallInitialiseBoard
| CallSolver (T0 : Temp) (max_iterations max_stagnation : Z) (decay : Temp).

Definition perform (c : call) : M World unit :=
  match c with
  | CallSetValue row col value => on_board (set_value row col value)
  | CallSwapValues coord1 coord2 => on_board (swap_values coord1 coord2)
  | CallReset => on_board reset
  | CallInitialiseBoard => on_board initialise_board
  | CallSolver T0 mi ms decay => solver T0 mi ms decay ;; ret tt
  end.

(** A sequence of calls; a client may catch an exception and go on, so
    the state is threaded through whatever each call's outcome is. *)
Fixpoint perform_all (cs : list call) (w : World) : World :=
  match cs with
  | [] => w
  | c :: rest => perform_all rest (snd (perform c w))
  end.

End Annealing.

(** ** sudoku_solver.py: the acceptance test of line 130 *)

Section Libm.

(** [math.exp]: a float for a float, or [OverflowError] when the C
    library reports a range error. *)
Variable math_exp : PrimFloat.float -> outcome PrimFloat.float.

(** [random.random() < math.exp(-delta_cost / T)] for the draw [u],
    operand by operand in Python's order: the draw; the int
    [-delta_cost], converted for the division by the float [T], which
    raises [ZeroDivisionError] on a zero of either sign; the
    exponential; the comparison of the two floats.  A temperature given
    as a small int, like the default 2, divides and cools as the float
    of the same value does. *)
Definition acceptance_test (u : nat) (delta_cost : Z) (T : PrimFloat.float)
  : outcome bool :=
  let r := random_random u in
  let? x := float_of_int (- delta_cost) in
  if PrimFloat.eqb T PrimFloat.zero then Raise ZeroDivisionError
  else
    let? e := math_exp (PrimFloat.div x T) in
    Ok (PrimFloat.ltb r e).

(** [solver] as the source has it: float temperatures, [T *= decay] the
    float product, and the test above. *)
Definition sudoku_solver (pop_choice : list Z -> nat)
           (T0 : PrimFloat.float) (max_iterations max_stagnation : Z)
           (decay : PrimFloat.float) : M World bool :=
  solver pop_choice PrimFloat.mul acceptance_test
         T0 max_iterations max_stagnation decay.

End Libm.

Unset Implicit Arguments.

(** ** Shapes and sample boards *)

Definition shape9 {A : Type} (g : list (list A)) : Prop :=
  length g = 9%nat /\ Forall (fun r => length r = 9%nat) g.

Definition well_formed (b : Board) : Prop :=
  shape9 (grid b) /\ shape9 (fixed_cells b).

(** The value at a coordinate of a grid, 0 outside it. *)
Definition cell (g : list (list Z)) (rc : coord) : Z :=
  nth (snd rc) (nth (fst rc) g []) 0%Z.

(** The count a [Counter] holds for a key: that of the first entry. *)
Fixpoint lookup (k : Z) (counts : list (Z * Z)) : Z :=
  match counts with
  | [] => 0%Z
  | (k', n) :: t => if (k' =? k)%Z then n else lookup k t
  end.

(** The summand of [group_cost] for a value of the group. *)
Definition penalty (g : list Z) (k : Z) : Z :=
  if (k =? 0)%Z then count g k else (count g k - 1)%Z.

(** The 27 groups of a board whose boxes were read without error. *)
Definition groups_of (b : Board) : list (list Z) :=
  get_rows b ++ get_columns b ++ map (map (cell (grid b))) get_box_coordinates.

(** A solved grid. *)
Definition solved_grid : list (list Z) :=
  [ [1; 2; 3; 4; 5; 6; 7; 8; 9];
    [4; 5; 6; 7; 8; 9; 1; 2; 3];
    [7; 8; 9; 1; 2; 3; 4; 5; 6];
    [2; 3; 4; 5; 6; 7; 8; 9; 1];
    [5; 6; 7; 8; 9; 1; 2; 3; 4];
    [8; 9; 1; 2; 3; 4; 5; 6; 7];
    [3; 4; 5; 6; 7; 8; 9; 1; 2];
    [6; 7; 8; 9; 1; 2; 3; 4; 5];
    [9; 1; 2; 3; 4; 5; 6; 7; 8] ]%Z.

Definition solved_board : Board := Board_init (Some solved_grid).

(** ** Auxiliary notions for the proofs *)

(** Whether a coordinate indexes an entry of a list of lists. *)
Definition inside {A : Type} (g : list (list A)) (r c : nat) : bool :=
  (r <? length g)%nat && (c <? length (nth r g []))%nat.

(** Total form of an item assignment: the list is kept when the index is
    out of range. *)
Fixpoint replace {A : Type} (l : list A) (i : nat) (v : A) : list A :=
  match l, i with
  | [], _ => []
  | _ :: t, O => v :: t
  | x :: t, S j => x :: replace t j v
  end.

Definition upd (g : list (list Z)) (r c : nat) (v : Z) : list (list Z) :=
  replace g r (replace (nth r g []) c v).

Definition flag (m : list (list bool)) (rc : coord) : bool :=
  nth (snd rc) (nth (fst rc) m []) false.

(** [b'] has the mask of [b] and the value of [b] wherever [b] is fixed. *)
Definition protects (b b' : Board) : Prop :=
  fixed_cells b' = fixed_cells b
  /\ forall row col, is_cell_fixed b row col = Ok true ->
                     get_value b' row col = get_value b row col.

(** A computation that, whatever its outcome, leaves in [P] a state it
    found in [P]. *)
Definition keeps {S A : Type} (P : S -> Prop) (m : M S A) : Prop :=
  forall s, P s -> P (snd (m s)).

(** The grid [swap_values] leaves when both coordinates are in range. *)
Definition swapped (b : Board) (coord1 coord2 : coord) : list (list Z) :=
  let v1 := cell (grid b) coord1 in
  let v2 := cell (grid b) coord2 in
  let g1 := if flag (fixed_cells b) coord1 then grid b
            else upd (grid b) (fst coord1) (snd coord1) v2 in
  if flag (fixed_cells b) coord2 then g1
  else upd g1 (fst coord2) (snd coord2) v1.

(** A puzzle with a single given, 5 in the top left corner. *)
Definition one_given : Board :=
  Board_init (Some ([5; 0; 0; 0; 0; 0; 0; 0; 0]%Z :: repeat (repeat 0%Z 9) 8)).

(** The solved grid written into an empty board: every cell modifiable. *)
Definition scratch_board : Board :=
  mkBoard solved_grid (repeat (repeat false 9) 9).

(** An empty board after [set_value(0, 0, 5)]: the 5 is not a given. *)
Definition pencilled : Board := snd (set_value 0 0 5%Z (Board_init None)).

(** The digits 1..9. *)
Definition digits : list Z := map Z.of_nat (seq 1 9).

Definition nonzero (num : Z) : bool := negb (num =? 0)%Z.

(** What the inner loop of [initialise_board] makes of the part of a row
    it walks over, as a function of the values, the mask and the set of
    missing numbers it starts from. *)
Fixpoint filled (pop_choice : list Z -> nat) (vals : list Z) (mask : list bool)
         (missing_numbers : list Z) : outcome (list Z) :=
  match vals, mask with
  | v :: vs, f :: fs =>
      if (v =? 0)%Z then
        let? xm := set_pop pop_choice missing_numbers in
        let? rest := filled pop_choice vs fs (snd xm) in
        Ok ((if f : bool then v else fst xm) :: rest)
      else
        let? rest := filled pop_choice vs fs missing_numbers in
        Ok (v :: rest)
  | _, _ => Ok []
  end.

(** The same for the rows the outer loop still has to visit. *)
Fixpoint filled_rows (pop_choice : list Z -> nat) (rows : list (list Z))
         (masks : list (list bool)) : outcome (list (list Z)) :=
  match rows, masks with
  | row :: rows', mask :: masks' =>
      let? row' := filled pop_choice row mask (missing_of row) in
      let? rest := filled_rows pop_choice rows' masks' in
      Ok (row' :: rest)
  | _, _ => Ok []
  end.

(** Stand-ins for the open parts of the model in the examples: the
    smallest element is popped, the temperature carries no information
    and a move that does not lower the cost is refused. *)
Definition pop_smallest : list Z -> nat := fun _ => 0%nat.
Definition no_temp : unit -> unit -> unit := fun _ _ => tt.
Definition refuse : nat -> Z -> unit -> outcome bool := fun _ _ _ => Ok false.



(** The solved grid with its top left cell blanked. *)
Definition one_blank_grid : list (list Z) :=
  [0; 2; 3; 4; 5; 6; 7; 8; 9]%Z :: tl solved_grid.

Definition one_blank : Board := Board_init (Some one_blank_grid).

(** The solved grid with its top left cell and its second row blanked. *)
Definition lone_blank_grid : list (list Z) :=
  [0; 2; 3; 4; 5; 6; 7; 8; 9]%Z :: repeat 0%Z 9 :: tl (tl solved_grid).

Definition lone_blank : Board := Board_init (Some lone_blank_grid).

(** A computation whose values, when it returns, are in [Q]. *)
Definition yields {S A : Type} (Q : A -> Prop) (m : M S A) : Prop :=
  forall s a s', m s = (Ok a, s') -> Q a.

(** The solved grid with its first two cells exchanged, in a board whose
    only modifiable cells are these two. *)
Definition two_swapped : Board :=
  mkBoard ([2; 1; 3; 4; 5; 6; 7; 8; 9]%Z :: tl solved_grid)
          ([false; false; true; true; true; true; true; true; true]
             :: repeat (repeat true 9) 8).

(** ** Further notions *)

(** [b] has the mask of [b0] and a grid of the same dimensions. *)
Definition same_shape (b0 b : Board) : Prop :=
  fixed_cells b = fixed_cells b0
  /\ length (grid b) = length (grid b0)
  /\ forall r, length (nth r (grid b) []) = length (nth r (grid b0) []).

(** Duplicate-freeness of a list of coordinates, as a test. *)
Fixpoint distinct_coords (l : list coord) : bool :=
  match l with
  | [] => true
  | x :: t => negb (existsb (coord_eqb x) t) && distinct_coords t
  end.

(** All coordinates of the 9x9 grid, row by row. *)
Definition all_coords : list coord :=
  flat_map (fun r => map (pair r) range9) range9.

(** The index of the box of a coordinate in [get_box_coordinates]. *)
Definition box_index (rc : coord) : nat := (3 * (fst rc / 3) + snd rc / 3)%nat.

(** The three groups of a coordinate, as [coordinate_cost] reads them. *)
Definition row_group (b : Board) (rc : coord) : list Z := nth (fst rc) (get_rows b) [].
Definition col_group (b : Board) (rc : coord) : list Z := nth (snd rc) (get_columns b) [].
Definition box_group (b : Board) (rc : coord) : list Z :=
  map (cell (grid b)) (nth (box_index rc) get_box_coordinates []).

(** The loop invariant of [solver]: the board is 9x9, its modifiable
    coordinates are those computed before the loop, and [current_cost]
    is the cost of the board. *)
Definition tracks {Temp : Type} (mc : list coord) (w : World)
           (st : annealing Temp) : Prop :=
  well_formed (board w)
  /\ get_modifiable_coordinates (board w) = Ok mc
  /\ cost_function (board w) = Ok (current_cost st).

(** The solved grid with a second 2 in its first row: no blank, not valid. *)
Definition clash_grid : list (list Z) :=
  [2; 2; 3; 4; 5; 6; 7; 8; 9]%Z :: tl solved_grid.

(** * Properties *)

(** ** Sums and counters *)

Lemma fold_add_shift (l : list Z) (a : Z) :
  fold_left Z.add l a = (a + fold_left Z.add l 0)%Z.
Proof.
  revert a; induction l as [|x l IH]; intros a; simpl.
  - lia.
  - rewrite (IH (a + x)%Z), (IH x). lia.
Qed.

Lemma sum_cons (x : Z) (l : list Z) : sum (x :: l) = (x + sum l)%Z.
Proof. unfold sum; simpl. now rewrite fold_add_shift. Qed.

Lemma sum_app (l1 l2 : list Z) : sum (l1 ++ l2) = (sum l1 + sum l2)%Z.
Proof.
  induction l1 as [|x l1 IH]; simpl.
  - reflexivity.
  - rewrite !sum_cons, IH. lia.
Qed.

Lemma sum_nonneg (l : list Z) :
  (forall x, In x l -> 0 <= x)%Z -> (0 <= sum l)%Z.
Proof.
  induction l as [|x l IH]; intros H.
  - unfold sum; simpl; lia.
  - rewrite sum_cons.
    assert (0 <= x)%Z by (apply H; now left).
    assert (0 <= sum l)%Z by (apply IH; intros y Hy; apply H; now right).
    lia.
Qed.

Lemma sum_zero_iff (l : list Z) :
  (forall x, In x l -> 0 <= x)%Z ->
  (sum l = 0%Z <-> forall x, In x l -> x = 0%Z).
Proof.
  induction l as [|x l IH]; intros H.
  - split; [intros _ y [] | reflexivity].
  - rewrite sum_cons.
    assert (Hx : (0 <= x)%Z) by (apply H; now left).
    assert (Hl : forall y, In y l -> (0 <= y)%Z) by (intros y Hy; apply H; now right).
    pose proof (sum_nonneg l Hl) as Hs.
    specialize (IH Hl). split.
    + intros E y [<-|Hy]; [lia|]. apply IH; [lia | exact Hy].
    + intros A.
      assert (x = 0%Z) by (apply A; now left).
      assert (sum l = 0%Z) by (apply IH; intros y Hy; apply A; now right).
      lia.
Qed.

Lemma fold_group_cost (f : list Z -> Z) (l : list (list Z)) (a : Z) :
  fold_left (fun t g => (t + f g)%Z) l a = (a + sum (map f l))%Z.
Proof.
  revert a; induction l as [|g l IH]; intros a; simpl.
  - unfold sum; simpl; lia.
  - rewrite IH, sum_cons. lia.
Qed.

Lemma lookup_Counter_add (k v : Z) (counts : list (Z * Z)) :
  lookup k (Counter_add v counts)
  = (lookup k counts + (if (v =? k)%Z then 1 else 0))%Z.
Proof.
  induction counts as [|[k' n] t IH]; simpl.
  - destruct (v =? k)%Z; lia.
  - destruct (k' =? v)%Z eqn:Ekv; simpl.
    + apply Z.eqb_eq in Ekv; subst k'.
      destruct (v =? k)%Z; lia.
    + destruct (k' =? k)%Z eqn:Ek; [|exact IH].
      apply Z.eqb_eq in Ek; subst k'. rewrite Z.eqb_sym, Ekv. lia.
Qed.

Lemma keys_Counter_add (k v : Z) (counts : list (Z * Z)) :
  In k (map fst (Counter_add v counts)) <-> k = v \/ In k (map fst counts).
Proof.
  induction counts as [|[k' n] t IH]; simpl.
  - intuition.
  - destruct (k' =? v)%Z eqn:Ekv; simpl.
    + apply Z.eqb_eq in Ekv; subst k'. intuition.
    + rewrite IH. intuition.
Qed.

Lemma NoDup_Counter_add (v : Z) (counts : list (Z * Z)) :
  NoDup (map fst counts) -> NoDup (map fst (Counter_add v counts)).
Proof.
  induction counts as [|[k' n] t IH]; simpl; intros H.
  - constructor; [intros [] | constructor].
  - inversion H as [|? ? Hn Ht]; subst.
    destruct (k' =? v)%Z eqn:Ekv; simpl.
    + now constructor.
    + constructor; [|now apply IH].
      rewrite keys_Counter_add. intros [E|E]; [|contradiction].
      subst k'. now rewrite Z.eqb_refl in Ekv.
Qed.

Lemma lookup_In (k n : Z) (counts : list (Z * Z)) :
  NoDup (map fst counts) -> In (k, n) counts -> lookup k counts = n.
Proof.
  induction counts as [|[k' n'] t IH]; simpl; intros H Hin; [contradiction|].
  inversion H as [|? ? Hn Ht]; subst.
  destruct Hin as [E|Hin].
  - inversion E; subst. now rewrite Z.eqb_refl.
  - destruct (k' =? k)%Z eqn:Ek; [|now apply IH].
    apply Z.eqb_eq in Ek; subst k'.
    exfalso; apply Hn. now apply (in_map fst) in Hin.
Qed.

Lemma count_app_one (s : list Z) (v k : Z) :
  count (s ++ [v]) k = (count s k + (if (v =? k)%Z then 1 else 0))%Z.
Proof.
  unfold count. rewrite count_occ_app; simpl.
  destruct (Z.eq_dec v k) as [E|E].
  - subst. rewrite Z.eqb_refl. lia.
  - apply Z.eqb_neq in E. rewrite E. lia.
Qed.

(** Folding a group into a counter that already describes [s]. *)
Lemma Counter_fold (g s : list Z) (counts : list (Z * Z)) :
  NoDup (map fst counts) ->
  (forall k, In k (map fst counts) <-> In k s) ->
  (forall k, lookup k counts = count s k) ->
  let counts' := fold_left (fun c v => Counter_add v c) g counts in
  NoDup (map fst counts')
  /\ (forall k, In k (map fst counts') <-> In k (s ++ g))
  /\ (forall k, lookup k counts' = count (s ++ g) k).
Proof.
  revert s counts; induction g as [|v g IH]; intros s counts Hnd Hk Hl; simpl.
  - rewrite app_nil_r. auto.
  - specialize (IH (s ++ [v]) (Counter_add v counts)).
    rewrite <- app_assoc in IH; simpl in IH. apply IH.
    + now apply NoDup_Counter_add.
    + intros k. rewrite keys_Counter_add, in_app_iff, Hk. simpl. intuition.
    + intros k. now rewrite lookup_Counter_add, count_app_one, Hl.
Qed.

Lemma Counter_spec (g : list Z) :
  NoDup (map fst (Counter g))
  /\ (forall k, In k (map fst (Counter g)) <-> In k g)
  /\ (forall k n, In (k, n) (Counter g) -> n = count g k).
Proof.
  destruct (Counter_fold g [] []) as (Hnd & Hk & Hl).
  - constructor.
  - intros k; simpl; tauto.
  - intros k; reflexivity.
  - simpl in *. fold (Counter g) in *. repeat split; auto.
    + now apply Hk.
    + now apply Hk.
    + intros k n Hin. rewrite <- Hl. symmetry. now apply lookup_In.
Qed.

Lemma group_cost_penalty (g : list Z) :
  group_cost g = sum (map (penalty g) (map fst (Counter g))).
Proof.
  unfold group_cost. rewrite map_map. f_equal.
  apply map_ext_in. intros [k n] Hin.
  destruct (Counter_spec g) as (_ & _ & Hc).
  rewrite (Hc k n Hin). unfold penalty; simpl.
  now destruct (k =? 0)%Z.
Qed.

Lemma count_pos (g : list Z) (k : Z) : In k g <-> (1 <= count g k)%Z.
Proof.
  unfold count. rewrite (count_occ_In Z.eq_dec). lia.
Qed.

Lemma penalty_nonneg (g : list Z) (k : Z) : In k g -> (0 <= penalty g k)%Z.
Proof.
  intros H. apply count_pos in H. unfold penalty.
  destruct (k =? 0)%Z; lia.
Qed.

Lemma penalty_zero (g : list Z) (k : Z) :
  In k g -> (penalty g k = 0%Z <-> k <> 0%Z /\ count g k = 1%Z).
Proof.
  intros H. apply count_pos in H. unfold penalty.
  destruct (k =? 0)%Z eqn:E.
  - apply Z.eqb_eq in E. lia.
  - apply Z.eqb_neq in E. lia.
Qed.

Lemma group_cost_nonneg (g : list Z) : (0 <= group_cost g)%Z.
Proof.
  rewrite group_cost_penalty. apply sum_nonneg.
  intros x Hx. apply in_map_iff in Hx as (k & <- & Hk).
  apply penalty_nonneg. now apply (Counter_spec g).
Qed.

(** A group costs nothing exactly when it has no blank and no repeat. *)
Lemma group_cost_zero_iff (g : list Z) :
  group_cost g = 0%Z <-> NoDup g /\ ~ In 0%Z g.
Proof.
  destruct (Counter_spec g) as (Hnd & Hk & _).
  rewrite group_cost_penalty, sum_zero_iff.
  - split.
    + intros H.
      assert (A : forall k, In k g -> k <> 0%Z /\ count g k = 1%Z).
      { intros k Hin. apply penalty_zero; [exact Hin|].
        apply H, in_map. now apply Hk. }
      split.
      * apply (NoDup_count_occ' Z.eq_dec). intros k Hin.
        destruct (A k Hin) as [_ Hc]. unfold count in Hc. lia.
      * intros H0. now destruct (A 0%Z H0).
    + intros [Hg H0] x Hx. apply in_map_iff in Hx as (k & <- & Hin).
      apply Hk in Hin. apply penalty_zero; [exact Hin|]. split.
      * intros ->. contradiction.
      * pose proof (proj1 (NoDup_count_occ' Z.eq_dec g) Hg k Hin).
        unfold count. lia.
  - intros x Hx. apply in_map_iff in Hx as (k & <- & Hin).
    apply penalty_nonneg. now apply Hk.
Qed.

Lemma sum_two_terms (f : Z -> Z) (ks : list Z) (a b : Z) :
  (forall k, In k ks -> 0 <= f k)%Z -> In a ks -> In b ks -> a <> b ->
  (f a + f b <= sum (map f ks))%Z.
Proof.
  intros Hf Ha Hb Hab.
  destruct (in_split a ks Ha) as (l1 & l2 & ->).
  assert (Hb' : In b (l1 ++ l2)).
  { apply in_app_iff in Hb as [Hb|[Hb|Hb]]; try congruence;
      apply in_app_iff; auto. }
  assert (Hrest : (f b <= sum (map f (l1 ++ l2)))%Z).
  { destruct (in_split b _ Hb') as (m1 & m2 & E). rewrite E.
    rewrite map_app, sum_app; simpl; rewrite sum_cons.
    assert (Hm : forall k, In k (m1 ++ b :: m2) -> (0 <= f k)%Z).
    { intros k Hk. apply Hf. rewrite <- E in Hk.
      apply in_app_iff in Hk as [Hk|Hk]; apply in_app_iff; simpl; auto. }
    assert (0 <= sum (map f m1))%Z.
    { apply sum_nonneg. intros x Hx. apply in_map_iff in Hx as (k & <- & Hk).
      apply Hm, in_app_iff; auto. }
    assert (0 <= sum (map f m2))%Z.
    { apply sum_nonneg. intros x Hx. apply in_map_iff in Hx as (k & <- & Hk).
      apply Hm, in_app_iff; simpl; auto. }
    lia. }
  rewrite map_app, sum_app in *; simpl. rewrite sum_cons. lia.
Qed.

(** C7: [group_cost] sums, over the distinct values of the group, the
    number of zeros for the value 0 and the count less one for any other
    value.  Hence a group holding each of 1..9 once costs 0, nine zeros
    cost 9, and a group in which some digit occurs twice next to a zero
    costs at least 2. *)
Theorem group_cost_spec (g : list Z) :
  (exists values : list Z,
      NoDup values
      /\ (forall k, In k values <-> In k g)
      /\ group_cost g
         = sum (map (fun k => if (k =? 0)%Z then count g k else (count g k - 1)%Z)
                    values))
  /\ (Permutation g (map Z.of_nat (seq 1 9)) -> group_cost g = 0%Z)
  /\ (g = repeat 0%Z 9 -> group_cost g = 9%Z)
  /\ (forall d : Z,
        d <> 0%Z -> (2 <= count g d)%Z -> (1 <= count g 0)%Z ->
        (2 <= group_cost g)%Z).
Proof.
  destruct (Counter_spec g) as (Hnd & Hk & _).
  repeat split.
  - exists (map fst (Counter g)). repeat split; try apply Hk; auto.
    apply group_cost_penalty.
  - intros P. apply group_cost_zero_iff. split.
    + apply (Permutation_NoDup (Permutation_sym P)).
      apply Injective_map_NoDup; [|apply seq_NoDup].
      intros x y E. lia.
    + intros H0. apply (Permutation_in _ P) in H0.
      apply in_map_iff in H0 as (n & E & Hn). apply in_seq in Hn. lia.
  - intros ->. reflexivity.
  - intros d Hd H2 H1.
    assert (Hin_d : In d g) by (apply count_pos; lia).
    assert (Hin_0 : In 0%Z g) by (apply count_pos; lia).
    rewrite group_cost_penalty.
    pose proof (sum_two_terms (penalty g) (map fst (Counter g)) d 0%Z) as S.
    assert (Pd : penalty g d = (count g d - 1)%Z).
    { unfold penalty. apply Z.eqb_neq in Hd. now rewrite Hd. }
    assert (P0 : penalty g 0%Z = count g 0%Z) by reflexivity.
    rewrite Pd, P0 in S.
    enough (count g d - 1 + count g 0
            <= sum (map (penalty g) (map fst (Counter g))))%Z by lia.
    apply S; auto.
    + intros k Hin. apply penalty_nonneg. now apply Hk.
    + now apply Hk.
    + now apply Hk.
Qed.

Lemma group_cost_spec_witness :
  group_cost [1; 2; 3; 4; 5; 6; 7; 8; 9]%Z = 0%Z
  /\ group_cost [0; 0; 0; 0; 0; 0; 0; 0; 0]%Z = 9%Z
  /\ (2 <= group_cost [1; 1; 2; 3; 4; 5; 6; 7; 0]%Z)%Z.
Proof.
  split; [|split].
  - apply (proj1 (proj2 (group_cost_spec [1; 2; 3; 4; 5; 6; 7; 8; 9]%Z))).
    apply Permutation_refl.
  - apply (proj1 (proj2 (proj2 (group_cost_spec [0; 0; 0; 0; 0; 0; 0; 0; 0]%Z)))).
    reflexivity.
  - apply (proj2 (proj2 (proj2 (group_cost_spec [1; 1; 2; 3; 4; 5; 6; 7; 0]%Z)))
             1%Z).
    + discriminate.
    + vm_compute. discriminate.
    + vm_compute. discriminate.
Defined.

(** ** Reading a 9x9 grid *)

Lemma item_nth {A : Type} (l : list A) (i : nat) (d : A) :
  (i < length l)%nat -> item l i = Ok (nth i l d).
Proof.
  intros H. unfold item.
  destruct (nth_error l i) eqn:E.
  - now rewrite (nth_error_nth _ _ d E).
  - apply nth_error_None in E. lia.
Qed.

Lemma item_Ok {A : Type} (l : list A) (i : nat) (x : A) :
  item l i = Ok x <-> nth_error l i = Some x.
Proof.
  unfold item. destruct (nth_error l i); split; intros H; congruence.
Qed.

Lemma shape9_row {A : Type} (g : list (list A)) (r : nat) :
  shape9 g -> (r < 9)%nat -> length (nth r g []) = 9%nat.
Proof.
  intros [Hl Hr] Hlt. rewrite Forall_forall in Hr.
  apply Hr, nth_In. lia.
Qed.

Lemma get_value_cell (b : Board) (r c : nat) :
  shape9 (grid b) -> (r < 9)%nat -> (c < 9)%nat ->
  get_value b r c = Ok (cell (grid b) (r, c)).
Proof.
  intros Hs Hr Hc. unfold get_value, cell; simpl.
  rewrite (item_nth (grid b) r []) by (destruct Hs; lia). simpl.
  apply item_nth. rewrite shape9_row; auto.
Qed.

Lemma omap_Ok {A B : Type} (f : A -> outcome B) (h : A -> B) (l : list A) :
  (forall x, In x l -> f x = Ok (h x)) -> omap f l = Ok (map h l).
Proof.
  induction l as [|x l IH]; intros H; simpl.
  - reflexivity.
  - rewrite (H x) by now left. simpl.
    rewrite IH by (intros y Hy; apply H; now right). reflexivity.
Qed.

Lemma box_coordinates_in_range (box : list coord) (rc : coord) :
  In box get_box_coordinates -> In rc box ->
  (fst rc < 9)%nat /\ (snd rc < 9)%nat.
Proof.
  assert (E : forallb (forallb (fun rc : coord =>
                (fst rc <? 9)%nat && (snd rc <? 9)%nat)) get_box_coordinates = true)
    by reflexivity.
  intros Hb Hrc. rewrite forallb_forall in E. specialize (E box Hb).
  rewrite forallb_forall in E. specialize (E rc Hrc).
  apply andb_true_iff in E as [E1 E2].
  apply Nat.ltb_lt in E1, E2. auto.
Qed.

Lemma get_boxes_Ok (b : Board) :
  shape9 (grid b) ->
  get_boxes b = Ok (map (map (cell (grid b))) get_box_coordinates).
Proof.
  intros Hs. unfold get_boxes. apply omap_Ok. intros box Hbox.
  apply omap_Ok. intros rc Hrc.
  destruct (box_coordinates_in_range box rc Hbox Hrc).
  destruct rc as [r c]. now apply get_value_cell.
Qed.

Lemma fold_min_same (n : nat) (ls : list nat) :
  Forall (fun m => m = n) ls -> fold_left Nat.min ls n = n.
Proof.
  induction 1 as [|m ls -> _ IH]; simpl.
  - reflexivity.
  - now rewrite Nat.min_id.
Qed.

Lemma zip_star_shape9 (g : list (list Z)) :
  shape9 g ->
  zip_star g = map (fun j => map (fun row => nth j row 0%Z) g) (seq 0 9).
Proof.
  intros [Hl Hr]. destruct g as [|r0 rest]; [discriminate|].
  unfold zip_star. inversion Hr as [|? ? H0 Hrest]; subst.
  rewrite H0, fold_min_same; [reflexivity|].
  apply Forall_map. exact Hrest.
Qed.

(** Every entry of a group of a 9x9 board is the value of a cell. *)
Lemma row_entry (g : list (list Z)) (row : list Z) (x : Z) :
  shape9 g -> In row g -> In x row ->
  exists r c, (r < 9)%nat /\ (c < 9)%nat /\ x = cell g (r, c).
Proof.
  intros [Hl Hr] Hrow Hx.
  destruct (In_nth g row [] Hrow) as (r & Hlt & Er).
  destruct (In_nth row x 0%Z Hx) as (c & Hc & Ec).
  rewrite Forall_forall in Hr. rewrite (Hr row Hrow) in Hc.
  exists r, c. unfold cell; simpl. rewrite Er, Ec. repeat split; auto; lia.
Qed.

Lemma column_entry (g : list (list Z)) (col : list Z) (x : Z) :
  shape9 g -> In col (zip_star g) -> In x col ->
  exists r c, (r < 9)%nat /\ (c < 9)%nat /\ x = cell g (r, c).
Proof.
  intros Hs Hcol Hx. rewrite (zip_star_shape9 g Hs) in Hcol.
  apply in_map_iff in Hcol as (j & <- & Hj). apply in_seq in Hj.
  apply in_map_iff in Hx as (row & <- & Hrow).
  destruct (In_nth g row [] Hrow) as (r & Hlt & Er).
  exists r, j. unfold cell; simpl. rewrite Er.
  destruct Hs as [Hl _]. repeat split; auto; lia.
Qed.

Lemma box_entry (g : list (list Z)) (box : list Z) (x : Z) :
  In box (map (map (cell g)) get_box_coordinates) -> In x box ->
  exists r c, (r < 9)%nat /\ (c < 9)%nat /\ x = cell g (r, c).
Proof.
  intros Hbox Hx. apply in_map_iff in Hbox as (cs & <- & Hcs).
  apply in_map_iff in Hx as ([r c] & <- & Hrc).
  destruct (box_coordinates_in_range cs (r, c) Hcs Hrc).
  exists r, c. auto.
Qed.

Lemma cell_in_row (g : list (list Z)) (r c : nat) :
  shape9 g -> (r < 9)%nat -> (c < 9)%nat ->
  In (nth r g []) g /\ In (cell g (r, c)) (nth r g []).
Proof.
  intros Hs Hr Hc. split.
  - apply nth_In. destruct Hs; lia.
  - unfold cell; simpl. apply nth_In. rewrite shape9_row; auto.
Qed.

(** ** Validity of a group *)

Lemma nodup_length_le (l : list Z) :
  (length (nodup Z.eq_dec l) <= length l)%nat.
Proof.
  induction l as [|x l IH]; simpl; [lia|].
  destruct (in_dec Z.eq_dec x l); simpl; lia.
Qed.

Lemma nodup_length_eq (l : list Z) :
  length l = length (nodup Z.eq_dec l) <-> NoDup l.
Proof.
  split.
  - induction l as [|x l IH]; simpl; intros H; [constructor|].
    pose proof (nodup_length_le l).
    destruct (in_dec Z.eq_dec x l); simpl in H; [lia|].
    constructor; [assumption | apply IH; lia].
  - intros H. now rewrite nodup_fixed_point.
Qed.

Lemma is_valid_group_iff (g : list Z) :
  is_valid_group g = true
  <-> NoDup (filter (fun num => negb (num =? 0)%Z) g).
Proof.
  unfold is_valid_group. rewrite Nat.eqb_eq. apply nodup_length_eq.
Qed.

Lemma filter_nonzero_id (g : list Z) :
  ~ In 0%Z g -> filter (fun num => negb (num =? 0)%Z) g = g.
Proof.
  induction g as [|x g IH]; simpl; intros H; [reflexivity|].
  destruct (x =? 0)%Z eqn:E; simpl.
  - apply Z.eqb_eq in E. exfalso; apply H; now left.
  - f_equal. apply IH. intros H0; apply H; now right.
Qed.

Lemma cost_function_groups (b : Board) :
  shape9 (grid b) ->
  cost_function b = Ok (sum (map group_cost (groups_of b))).
Proof.
  intros Hs. unfold cost_function, groups_of.
  rewrite (get_boxes_Ok b Hs). unfold obind.
  rewrite !fold_group_cost, !map_app, !sum_app. f_equal. lia.
Qed.

Lemma is_valid_groups (b : Board) :
  shape9 (grid b) ->
  is_valid b = Ok (forallb is_valid_group (groups_of b)).
Proof.
  intros Hs. unfold is_valid, groups_of. now rewrite (get_boxes_Ok b Hs).
Qed.

Lemma group_entry (b : Board) (g : list Z) (x : Z) :
  shape9 (grid b) -> In g (groups_of b) -> In x g ->
  exists r c, (r < 9)%nat /\ (c < 9)%nat /\ x = cell (grid b) (r, c).
Proof.
  intros Hs Hg Hx. unfold groups_of in Hg.
  apply in_app_iff in Hg as [Hg|Hg]; [|apply in_app_iff in Hg as [Hg|Hg]].
  - now apply (row_entry (grid b) g x).
  - now apply (column_entry (grid b) g x).
  - now apply (box_entry (grid b) g x).
Qed.

Lemma total_cost_zero (b : Board) :
  shape9 (grid b) ->
  cost_function b = Ok 0%Z
  <-> is_valid b = Ok true
      /\ forall row col, (row < 9)%nat -> (col < 9)%nat ->
                         get_value b row col <> Ok 0%Z.
Proof.
  intros Hs.
  rewrite (cost_function_groups b Hs), (is_valid_groups b Hs).
  assert (Hcost : sum (map group_cost (groups_of b)) = 0%Z
                  <-> forall g, In g (groups_of b) -> NoDup g /\ ~ In 0%Z g).
  { rewrite sum_zero_iff.
    - split.
      + intros H g Hg. apply group_cost_zero_iff, H, in_map, Hg.
      + intros H x Hx. apply in_map_iff in Hx as (g & <- & Hg).
        apply group_cost_zero_iff, H, Hg.
    - intros x Hx. apply in_map_iff in Hx as (g & <- & _).
      apply group_cost_nonneg. }
  split.
  - intros H. assert (H' : sum (map group_cost (groups_of b)) = 0%Z) by congruence.
    rewrite Hcost in H'. split.
    + f_equal. apply forallb_forall. intros g Hg.
      apply is_valid_group_iff, NoDup_filter, H', Hg.
    + intros r c Hr Hc. rewrite (get_value_cell b r c Hs Hr Hc).
      intros E. inversion E as [E0].
      destruct (cell_in_row (grid b) r c Hs Hr Hc) as [Hrow Hin].
      destruct (H' (nth r (grid b) [])) as [_ Hz].
      * unfold groups_of, get_rows. apply in_app_iff. now left.
      * apply Hz. now rewrite <- E0.
  - intros [Hv Hfull]. f_equal. apply Hcost. intros g Hg.
    assert (Hz : ~ In 0%Z g).
    { intros H0. destruct (group_entry b g 0%Z Hs Hg H0) as (r & c & Hr & Hc & E).
      apply (Hfull r c Hr Hc). rewrite (get_value_cell b r c Hs Hr Hc).
      now rewrite <- E. }
    split; [|exact Hz].
    assert (Hvg : forallb is_valid_group (groups_of b) = true) by congruence.
    rewrite forallb_forall in Hvg. specialize (Hvg g Hg).
    apply is_valid_group_iff in Hvg. now rewrite filter_nonzero_id in Hvg.
Qed.

(** C1: on a 9x9 board the total cost is zero exactly when the board is
    valid and none of its cells is blank. *)
Theorem cost_zero_iff_solved (b : Board) :
  shape9 (grid b) ->
  cost_function b = Ok 0%Z
  <-> is_valid b = Ok true
      /\ forall row col, (row < 9)%nat -> (col < 9)%nat ->
                         get_value b row col <> Ok 0%Z.
Proof. exact (total_cost_zero b). Qed.

Lemma cost_zero_iff_solved_witness :
  cost_function solved_board = Ok 0%Z
  <-> is_valid solved_board = Ok true
      /\ forall row col, (row < 9)%nat -> (col < 9)%nat ->
                         get_value solved_board row col <> Ok 0%Z.
Proof.
  apply (cost_zero_iff_solved solved_board).
  split; [reflexivity | repeat constructor].
Defined.

(** ** Item access and assignment *)

Lemma item_eq {A : Type} (l : list A) (i : nat) (d : A) :
  item l i = if (i <? length l)%nat then Ok (nth i l d) else Raise IndexError.
Proof.
  destruct (i <? length l)%nat eqn:E.
  - apply Nat.ltb_lt in E. now apply item_nth.
  - apply Nat.ltb_ge in E. unfold item.
    now rewrite (proj2 (nth_error_None l i) E).
Qed.

Lemma item2_eq {A : Type} (g : list (list A)) (r c : nat) (d : A) :
  (let? row := item g r in item row c)
  = if inside g r c then Ok (nth c (nth r g []) d) else Raise IndexError.
Proof.
  unfold inside. rewrite (item_eq g r []).
  destruct (r <? length g)%nat; simpl; [|reflexivity].
  apply item_eq.
Qed.

Lemma get_value_eq (b : Board) (r c : nat) :
  get_value b r c
  = if inside (grid b) r c then Ok (cell (grid b) (r, c)) else Raise IndexError.
Proof. apply item2_eq. Qed.

Lemma is_cell_fixed_eq (b : Board) (r c : nat) :
  is_cell_fixed b r c
  = if inside (fixed_cells b) r c then Ok (flag (fixed_cells b) (r, c))
    else Raise IndexError.
Proof. apply item2_eq. Qed.

Lemma setitem_eq {A : Type} (l : list A) (i : nat) (v : A) :
  setitem l i v
  = if (i <? length l)%nat then Ok (replace l i v) else Raise IndexError.
Proof.
  revert i; induction l as [|x l IH]; intros i; simpl.
  - reflexivity.
  - destruct i as [|j]; [reflexivity|].
    rewrite IH. change (S j <? S (length l))%nat with (j <? length l)%nat.
    now destruct (j <? length l)%nat.
Qed.

Lemma replace_length {A : Type} (l : list A) (i : nat) (v : A) :
  length (replace l i v) = length l.
Proof.
  revert i; induction l as [|x l IH]; intros [|j]; simpl; auto.
Qed.

Lemma replace_nth {A : Type} (l : list A) (i j : nat) (v d : A) :
  nth j (replace l i v) d
  = if (j =? i)%nat && (i <? length l)%nat then v else nth j l d.
Proof.
  revert i j; induction l as [|x l IH]; intros i j; simpl.
  - rewrite andb_false_r. now destruct j.
  - destruct i as [|i], j as [|j]; simpl; try reflexivity.
    rewrite IH. reflexivity.
Qed.

Lemma upd_length (g : list (list Z)) (r c : nat) (v : Z) :
  length (upd g r c v) = length g.
Proof. apply replace_length. Qed.

Lemma upd_row_length (g : list (list Z)) (r c : nat) (v : Z) (r' : nat) :
  length (nth r' (upd g r c v) []) = length (nth r' g []).
Proof.
  unfold upd. rewrite replace_nth.
  destruct ((r' =? r)%nat && (r <? length g)%nat) eqn:E; [|reflexivity].
  apply andb_true_iff in E as [E _]. apply Nat.eqb_eq in E; subst.
  apply replace_length.
Qed.

Lemma upd_inside (g : list (list Z)) (r c : nat) (v : Z) (r' c' : nat) :
  inside (upd g r c v) r' c' = inside g r' c'.
Proof. unfold inside. now rewrite upd_length, upd_row_length. Qed.

Lemma coord_eqb_eq (x y : coord) : coord_eqb x y = true <-> x = y.
Proof.
  destruct x as [a b], y as [c d]. unfold coord_eqb; simpl.
  rewrite andb_true_iff, !Nat.eqb_eq. split.
  - intros [-> ->]; reflexivity.
  - intros E; inversion E; auto.
Qed.

Lemma coord_eqb_refl (x : coord) : coord_eqb x x = true.
Proof. now apply coord_eqb_eq. Qed.

Lemma coord_eqb_neq (x y : coord) : coord_eqb x y = false <-> x <> y.
Proof.
  rewrite <- coord_eqb_eq. destruct (coord_eqb x y); split; congruence.
Qed.

Lemma upd_cell (g : list (list Z)) (r c : nat) (v : Z) (x : coord) :
  cell (upd g r c v) x
  = if inside g r c && coord_eqb x (r, c) then v else cell g x.
Proof.
  destruct x as [r' c']. unfold cell, upd, inside, coord_eqb; simpl.
  rewrite replace_nth.
  destruct (r' =? r)%nat eqn:Er; simpl.
  - apply Nat.eqb_eq in Er; subst r'.
    destruct (r <? length g)%nat; simpl; [|reflexivity].
    rewrite replace_nth.
    destruct (c' =? c)%nat, (c <? length (nth r g []))%nat; reflexivity.
  - now rewrite andb_false_r.
Qed.

Lemma grid_ext (g g' : list (list Z)) :
  length g = length g' ->
  (forall r, length (nth r g []) = length (nth r g' [])) ->
  (forall x, cell g x = cell g' x) ->
  g = g'.
Proof.
  intros Hl Hr Hc. apply (nth_ext g g' [] []); [exact Hl|].
  intros r _. apply (nth_ext _ _ 0%Z 0%Z); [apply Hr|].
  intros c _. apply (Hc (r, c)).
Qed.

Lemma store_eq (r c : nat) (v : Z) (b : Board) :
  store r c v b
  = if inside (grid b) r c
    then (Ok tt, mkBoard (upd (grid b) r c v) (fixed_cells b))
    else (Raise IndexError, b).
Proof.
  unfold store, inside, upd. rewrite (item_eq (grid b) r []).
  destruct (r <? length (grid b))%nat eqn:Er; simpl; [|reflexivity].
  rewrite setitem_eq.
  destruct (c <? length (nth r (grid b) []))%nat; simpl; [|reflexivity].
  now rewrite setitem_eq, Er.
Qed.

Lemma set_value_eq (r c : nat) (v : Z) (b : Board) :
  set_value r c v b
  = if inside (fixed_cells b) r c
    then if flag (fixed_cells b) (r, c) then (Ok tt, b) else store r c v b
    else (Raise IndexError, b).
Proof.
  unfold set_value, bind, read. rewrite is_cell_fixed_eq.
  destruct (inside (fixed_cells b) r c); [|reflexivity].
  now destruct (flag (fixed_cells b) (r, c)).
Qed.

(** ** The swap *)

Lemma get_value_Ok (b : Board) (r c : nat) (v : Z) :
  get_value b r c = Ok v <->
  inside (grid b) r c = true /\ cell (grid b) (r, c) = v.
Proof.
  rewrite get_value_eq. destruct (inside (grid b) r c); split.
  - intros E; inversion E; auto.
  - intros [_ ->]; reflexivity.
  - discriminate.
  - intros [E _]; discriminate.
Qed.

Lemma is_cell_fixed_Ok (b : Board) (r c : nat) (f : bool) :
  is_cell_fixed b r c = Ok f <->
  inside (fixed_cells b) r c = true /\ flag (fixed_cells b) (r, c) = f.
Proof.
  rewrite is_cell_fixed_eq. destruct (inside (fixed_cells b) r c); split.
  - intros E; inversion E; auto.
  - intros [_ ->]; reflexivity.
  - discriminate.
  - intros [E _]; discriminate.
Qed.

Lemma swap_values_eq (b : Board) (c1 c2 : coord) :
  inside (grid b) (fst c1) (snd c1) = true ->
  inside (grid b) (fst c2) (snd c2) = true ->
  inside (fixed_cells b) (fst c1) (snd c1) = true ->
  inside (fixed_cells b) (fst c2) (snd c2) = true ->
  swap_values c1 c2 b = (Ok tt, mkBoard (swapped b c1 c2) (fixed_cells b)).
Proof.
  destruct c1 as [r1 k1], c2 as [r2 k2]; simpl. intros G1 G2 F1 F2.
  unfold swap_values, swapped, bind, read; simpl.
  rewrite !get_value_eq, G1, G2, set_value_eq, F1.
  destruct (flag (fixed_cells b) (r1, k1)).
  - rewrite set_value_eq, F2.
    destruct (flag (fixed_cells b) (r2, k2)); [now destruct b|].
    now rewrite store_eq, G2.
  - rewrite store_eq, G1, set_value_eq; simpl. rewrite F2.
    destruct (flag (fixed_cells b) (r2, k2)); [reflexivity|].
    rewrite store_eq; simpl. now rewrite upd_inside, G2.
Qed.

Lemma swapped_length (b : Board) (c1 c2 : coord) :
  length (swapped b c1 c2) = length (grid b).
Proof.
  unfold swapped.
  destruct (flag (fixed_cells b) c1), (flag (fixed_cells b) c2);
    now rewrite ?upd_length.
Qed.

Lemma swapped_row_length (b : Board) (c1 c2 : coord) (r : nat) :
  length (nth r (swapped b c1 c2) []) = length (nth r (grid b) []).
Proof.
  unfold swapped.
  destruct (flag (fixed_cells b) c1), (flag (fixed_cells b) c2);
    now rewrite ?upd_row_length.
Qed.

Lemma swapped_inside (b : Board) (c1 c2 : coord) (r c : nat) :
  inside (swapped b c1 c2) r c = inside (grid b) r c.
Proof. unfold inside. now rewrite swapped_length, swapped_row_length. Qed.

Lemma swapped_cell (b : Board) (c1 c2 x : coord) :
  inside (grid b) (fst c1) (snd c1) = true ->
  inside (grid b) (fst c2) (snd c2) = true ->
  cell (swapped b c1 c2) x
  = if negb (flag (fixed_cells b) c2) && coord_eqb x c2 then cell (grid b) c1
    else if negb (flag (fixed_cells b) c1) && coord_eqb x c1 then cell (grid b) c2
    else cell (grid b) x.
Proof.
  intros G1 G2. unfold swapped.
  destruct c1 as [r1 k1], c2 as [r2 k2]; simpl in *.
  destruct (flag (fixed_cells b) (r1, k1)), (flag (fixed_cells b) (r2, k2));
    simpl; rewrite ?upd_cell, ?upd_inside, ?G1, ?G2; simpl; reflexivity.
Qed.

(** C10: a swap of two distinct modifiable coordinates exchanges their
    values and leaves every other cell, and the mask, as they were. *)
Theorem swap_values_exchanges (b : Board) (c1 c2 : coord) (v1 v2 : Z) :
  c1 <> c2 ->
  is_cell_fixed b (fst c1) (snd c1) = Ok false ->
  is_cell_fixed b (fst c2) (snd c2) = Ok false ->
  get_value b (fst c1) (snd c1) = Ok v1 ->
  get_value b (fst c2) (snd c2) = Ok v2 ->
  exists b',
    swap_values c1 c2 b = (Ok tt, b')
    /\ fixed_cells b' = fixed_cells b
    /\ get_value b' (fst c1) (snd c1) = Ok v2
    /\ get_value b' (fst c2) (snd c2) = Ok v1
    /\ forall row col, (row, col) <> c1 -> (row, col) <> c2 ->
                       get_value b' row col = get_value b row col.
Proof.
  intros Hne F1 F2 V1 V2.
  apply is_cell_fixed_Ok in F1 as [F1 M1], F2 as [F2 M2].
  apply get_value_Ok in V1 as [G1 V1], V2 as [G2 V2].
  exists (mkBoard (swapped b c1 c2) (fixed_cells b)).
  split; [now apply swap_values_eq|]. split; [reflexivity|].
  assert (E1 : c1 = (fst c1, snd c1)) by now destruct c1.
  assert (E2 : c2 = (fst c2, snd c2)) by now destruct c2.
  rewrite <- E1 in M1, V1. rewrite <- E2 in M2, V2.
  assert (N12 : coord_eqb c1 c2 = false) by now apply coord_eqb_neq.
  repeat split.
  - rewrite get_value_eq; simpl. rewrite swapped_inside, G1, <- E1.
    rewrite swapped_cell, M1, M2, N12, coord_eqb_refl by assumption.
    simpl. now rewrite V2.
  - rewrite get_value_eq; simpl. rewrite swapped_inside, G2, <- E2.
    rewrite swapped_cell, M2, coord_eqb_refl by assumption.
    simpl. now rewrite V1.
  - intros row col N1 N2. rewrite !get_value_eq; simpl.
    rewrite swapped_inside, swapped_cell by assumption.
    apply coord_eqb_neq in N1, N2. now rewrite N1, N2, !andb_false_r.
Qed.

Lemma swap_values_exchanges_witness :
  exists b',
    swap_values (0, 0)%nat (0, 1)%nat scratch_board = (Ok tt, b')
    /\ fixed_cells b' = fixed_cells scratch_board
    /\ get_value b' 0 0 = Ok 2%Z
    /\ get_value b' 0 1 = Ok 1%Z
    /\ forall row col, (row, col) <> (0, 0)%nat -> (row, col) <> (0, 1)%nat ->
                       get_value b' row col = get_value scratch_board row col.
Proof.
  apply (swap_values_exchanges scratch_board (0, 0)%nat (0, 1)%nat 1%Z 2%Z).
  - discriminate.
  - reflexivity.
  - reflexivity.
  - reflexivity.
  - reflexivity.
Defined.

Ltac coord_cases :=
  repeat match goal with
         | |- context [coord_eqb ?a ?b] =>
             let E := fresh "E" in
             destruct (coord_eqb a b) eqn:E;
             [apply coord_eqb_eq in E | apply coord_eqb_neq in E]
         end.

Lemma swapped_twice_cell (b : Board) (c1 c2 x : coord) :
  inside (grid b) (fst c1) (snd c1) = true ->
  inside (grid b) (fst c2) (snd c2) = true ->
  cell (swapped (mkBoard (swapped b c1 c2) (fixed_cells b)) c1 c2) x
  = if Bool.eqb (flag (fixed_cells b) c1) (flag (fixed_cells b) c2)
    then cell (grid b) x
    else if coord_eqb x c2 && flag (fixed_cells b) c1 then cell (grid b) c1
    else if coord_eqb x c1 && flag (fixed_cells b) c2 then cell (grid b) c2
    else cell (grid b) x.
Proof.
  intros G1 G2.
  rewrite swapped_cell; simpl; rewrite ?swapped_inside; try assumption.
  rewrite !swapped_cell by assumption.
  destruct (flag (fixed_cells b) c1) eqn:M1,
           (flag (fixed_cells b) c2) eqn:M2; simpl;
    coord_cases; subst; simpl; try congruence.
Qed.

(** C6, as the code has it: two swaps in a row succeed for coordinates in
    range and keep the mask; they give back the original grid exactly
    when the two coordinates are both fixed or both modifiable, or hold
    the same value. *)
Theorem swap_values_twice (b : Board) (c1 c2 : coord) (v1 v2 : Z) (f1 f2 : bool) :
  get_value b (fst c1) (snd c1) = Ok v1 ->
  get_value b (fst c2) (snd c2) = Ok v2 ->
  is_cell_fixed b (fst c1) (snd c1) = Ok f1 ->
  is_cell_fixed b (fst c2) (snd c2) = Ok f2 ->
  exists b2,
    (swap_values c1 c2 ;; swap_values c1 c2) b = (Ok tt, b2)
    /\ fixed_cells b2 = fixed_cells b
    /\ (grid b2 = grid b <-> f1 = f2 \/ v1 = v2).
Proof.
  intros V1 V2 F1 F2.
  apply is_cell_fixed_Ok in F1 as [F1 M1], F2 as [F2 M2].
  apply get_value_Ok in V1 as [G1 V1], V2 as [G2 V2].
  assert (E1 : (fst c1, snd c1) = c1) by now destruct c1.
  assert (E2 : (fst c2, snd c2) = c2) by now destruct c2.
  rewrite E1 in M1, V1. rewrite E2 in M2, V2.
  set (b1 := mkBoard (swapped b c1 c2) (fixed_cells b)).
  exists (mkBoard (swapped b1 c1 c2) (fixed_cells b)).
  split; [|split; [reflexivity|]].
  - unfold bind. rewrite (swap_values_eq b c1 c2) by assumption.
    fold b1. rewrite (swap_values_eq b1 c1 c2); [reflexivity| | | |];
      simpl; rewrite ?swapped_inside; assumption.
  - simpl. split.
    + intros E.
      destruct f1, f2; auto; right.
      * assert (C : cell (swapped b1 c1 c2) c2 = cell (grid b) c2) by now rewrite E.
        unfold b1 in C. rewrite swapped_twice_cell, M1, M2 in C by assumption.
        simpl in C. rewrite coord_eqb_refl in C. simpl in C. congruence.
      * assert (C : cell (swapped b1 c1 c2) c1 = cell (grid b) c1) by now rewrite E.
        unfold b1 in C. rewrite swapped_twice_cell, M1, M2 in C by assumption.
        simpl in C. rewrite coord_eqb_refl, andb_false_r in C. simpl in C.
        congruence.
    + intros H. apply grid_ext.
      * unfold b1. rewrite swapped_length. apply swapped_length.
      * intros r. unfold b1. rewrite swapped_row_length. apply swapped_row_length.
      * intros x. unfold b1. rewrite swapped_twice_cell by assumption.
        rewrite M1, M2.
        destruct H as [->| ->].
        -- now rewrite Bool.eqb_reflx.
        -- destruct f1, f2; simpl; try reflexivity;
             coord_cases; simpl; congruence.
Qed.

Lemma swap_values_twice_witness :
  exists b2,
    (swap_values (0, 0)%nat (0, 1)%nat ;; swap_values (0, 0)%nat (0, 1)%nat)
      scratch_board = (Ok tt, b2)
    /\ fixed_cells b2 = fixed_cells scratch_board
    /\ (grid b2 = grid scratch_board <-> false = false \/ 1%Z = 2%Z).
Proof.
  apply (swap_values_twice scratch_board (0, 0)%nat (0, 1)%nat 1%Z 2%Z false false);
    reflexivity.
Defined.

(** C6 as stated fails: with a given at (0,0) and a blank at (0,1), the
    first swap copies the 5 into the blank and the second cannot take it
    back. *)
Lemma swap_values_twice_counterexample :
  let twice := (swap_values (0, 0)%nat (0, 1)%nat ;;
                swap_values (0, 0)%nat (0, 1)%nat) one_given in
  fst twice = Ok tt
  /\ get_value one_given 0 1 = Ok 0%Z
  /\ get_value (snd twice) 0 1 = Ok 5%Z
  /\ grid (snd twice) <> grid one_given.
Proof.
  repeat split. discriminate.
Qed.

(** ** Copying *)

Lemma map_map_length {A B : Type} (f : A -> B) (g : list (list A)) (r : nat) :
  length (nth r (map (map f) g) []) = length (nth r g []).
Proof.
  change (@nil B) with (map f []). now rewrite map_nth, length_map.
Qed.

Lemma inside_map {A B : Type} (f : A -> B) (g : list (list A)) (r c : nat) :
  inside (map (map f) g) r c = inside g r c.
Proof. unfold inside. now rewrite length_map, map_map_length. Qed.

Lemma flag_truthy (g : list (list Z)) (r c : nat) :
  inside g r c = true ->
  flag (map (map truthy) g) (r, c) = truthy (cell g (r, c)).
Proof.
  unfold inside, flag, cell; simpl. intros H.
  apply andb_true_iff in H as [_ H]. apply Nat.ltb_lt in H.
  change (@nil bool) with (map truthy []). rewrite map_nth.
  rewrite (nth_indep _ false (truthy 0%Z)) by now rewrite length_map.
  apply map_nth.
Qed.

(** C8: the copy has the grid of the original, and its mask marks
    exactly the cells that hold a nonzero value, which need not be the
    mask of the original: a value written into a modifiable cell is a
    given of the copy. *)
Theorem copy_board_recomputes_mask (b : Board) :
  grid b <> [] ->
  grid (copy_board b) = grid b
  /\ (forall row col v,
        get_value b row col = Ok v ->
        get_value (copy_board b) row col = Ok v
        /\ is_cell_fixed (copy_board b) row col = Ok (negb (v =? 0)%Z))
  /\ (is_cell_fixed pencilled 0 0 = Ok false
      /\ is_cell_fixed (copy_board pencilled) 0 0 = Ok true).
Proof.
  intros Hne.
  assert (Hg : grid (copy_board b) = grid b).
  { unfold copy_board. rewrite map_id. destruct (grid b); [congruence|reflexivity]. }
  assert (Hm : fixed_cells (copy_board b) = map (map truthy) (grid b)).
  { unfold copy_board. rewrite map_id. destruct (grid b); [congruence|reflexivity]. }
  split; [exact Hg|]. split.
  - intros row col v V. split.
    + rewrite <- V. unfold get_value. now rewrite Hg.
    + apply get_value_Ok in V as [G V].
      apply is_cell_fixed_Ok. rewrite Hm, inside_map. split; [exact G|].
      rewrite flag_truthy by exact G. now rewrite V.
  - split; reflexivity.
Qed.

Lemma copy_board_recomputes_mask_witness :
  grid (copy_board pencilled) = grid pencilled
  /\ is_cell_fixed pencilled 0 0 = Ok false
  /\ is_cell_fixed (copy_board pencilled) 0 0 = Ok (negb (5 =? 0)%Z).
Proof.
  assert (Hne : grid pencilled <> []) by discriminate.
  destruct (copy_board_recomputes_mask pencilled Hne) as (Hg & Hc & Hp & _).
  split; [exact Hg|]. split; [exact Hp|].
  apply (Hc 0%nat 0%nat 5%Z). reflexivity.
Defined.

(** ** Invariants of computations *)

Section Keeps.

Context {S : Type} (P : S -> Prop).

Lemma keeps_ret {A : Type} (a : A) : keeps P (ret a).
Proof. intros s H. exact H. Qed.

Lemma keeps_raise {A : Type} (e : exn) : keeps P (@raise S A e).
Proof. intros s H. exact H. Qed.

Lemma keeps_read {A : Type} (f : S -> outcome A) : keeps P (read f).
Proof. intros s H. exact H. Qed.

Lemma keeps_bind {A B : Type} (m : M S A) (f : A -> M S B) :
  keeps P m -> (forall a, keeps P (f a)) -> keeps P (bind m f).
Proof.
  intros Hm Hf s H. unfold bind. specialize (Hm s H).
  destruct (m s) as [[a|e|] s']; simpl in *; auto.
  now apply Hf.
Qed.

Lemma keeps_for_each {A : Type} (l : list A) (body : A -> M S unit) :
  (forall x, In x l -> keeps P (body x)) -> keeps P (for_each l body).
Proof.
  induction l as [|x l IH]; intros H; simpl.
  - apply keeps_ret.
  - apply keeps_bind; [apply H; now left|].
    intros _. apply IH. intros y Hy. apply H. now right.
Qed.

Lemma keeps_while_true {A : Type} (fuel : nat) (body : M S (option A)) :
  keeps P body -> keeps P (while_true fuel body).
Proof.
  intros Hb. induction fuel as [|n IH]; simpl.
  - intros s H. exact H.
  - apply keeps_bind; [exact Hb|].
    intros [a|]; [apply keeps_ret | exact IH].
Qed.

End Keeps.

Lemma keeps_on_board {A : Type} (P : Board -> Prop) (m : M Board A) :
  keeps P m -> keeps (fun w => P (board w)) (on_board m).
Proof.
  intros Hm w H. unfold on_board. specialize (Hm (board w) H).
  now destruct (m (board w)).
Qed.

Lemma keeps_draw (P : Board -> Prop) : keeps (fun w => P (board w)) draw.
Proof.
  intros w H. unfold draw. now destruct (tape w).
Qed.

Lemma keeps_forever {A : Type} (P : World -> Prop) (body : M World (option A)) :
  keeps P body -> keeps P (forever body).
Proof.
  intros Hb w H. unfold forever. now apply keeps_while_true.
Qed.

Ltac keeps_step :=
  first
    [ apply keeps_ret
    | apply keeps_raise
    | apply keeps_read
    | apply keeps_draw
    | apply keeps_forever
    | apply keeps_on_board
    | apply keeps_bind; [|intros ?]
    | match goal with
      | |- keeps _ (match ?x with _ => _ end) => destruct x
      end ].

(** ** Fixed cells are never written *)

Lemma protects_refl (b : Board) : protects b b.
Proof. split; auto. Qed.

Lemma store_keeps (b0 : Board) (r c : nat) (v : Z) :
  is_cell_fixed b0 r c <> Ok true ->
  keeps (protects b0) (store r c v).
Proof.
  intros Hf b [Hm Hv]. rewrite store_eq.
  destruct (inside (grid b) r c) eqn:G; simpl; [|now split].
  split; [exact Hm|]. intros row col F.
  rewrite <- (Hv row col F), !get_value_eq; simpl.
  rewrite upd_inside, upd_cell, G; simpl.
  destruct (coord_eqb (row, col) (r, c)) eqn:E; [|reflexivity].
  apply coord_eqb_eq in E. inversion E; subst. contradiction.
Qed.

Lemma set_value_keeps (b0 : Board) (r c : nat) (v : Z) :
  keeps (protects b0) (set_value r c v).
Proof.
  intros b H. pose proof H as [Hm Hv].
  rewrite set_value_eq.
  destruct (inside (fixed_cells b) r c) eqn:I; [|exact H].
  destruct (flag (fixed_cells b) (r, c)) eqn:F; [exact H|].
  apply store_keeps; [|exact H].
  rewrite is_cell_fixed_eq, <- Hm, I, F. discriminate.
Qed.

Lemma swap_values_keeps (b0 : Board) (c1 c2 : coord) :
  keeps (protects b0) (swap_values c1 c2).
Proof.
  unfold swap_values. destruct c1 as [r1 k1], c2 as [r2 k2].
  repeat first [apply set_value_keeps | keeps_step].
Qed.

Lemma omap_In {A B : Type} (f : A -> outcome B) (l : list A) (ys : list B) (y : B) :
  omap f l = Ok ys -> In y ys -> exists x, In x l /\ f x = Ok y.
Proof.
  revert ys; induction l as [|x l IH]; intros ys; simpl.
  - intros E; inversion E; subst. intros [].
  - destruct (f x) as [y0| |] eqn:Ex; simpl; try discriminate.
    destruct (omap f l) as [ys0| |]; simpl; try discriminate.
    intros E; inversion E; subst. intros [<-|Hy].
    + exists x. auto.
    + destruct (IH ys0 eq_refl Hy) as (x' & Hx' & E').
      exists x'. auto.
Qed.

Lemma get_modifiable_coordinates_modifiable (b : Board) (l : list coord) (rc : coord) :
  get_modifiable_coordinates b = Ok l -> In rc l ->
  is_cell_fixed b (fst rc) (snd rc) = Ok false.
Proof.
  unfold get_modifiable_coordinates. intros E Hin.
  destruct (omap _ range9) as [rows| |] eqn:Er; simpl in E; try discriminate.
  inversion E; subst l; clear E.
  apply in_concat in Hin as (row & Hrow & Hin).
  destruct (omap_In _ _ _ _ Er Hrow) as (r & _ & Erow).
  destruct (omap _ range9) as [keep| |] eqn:Ek in Erow; simpl in Erow; try discriminate.
  inversion Erow; subst row; clear Erow.
  apply in_map_iff in Hin as ([m rc'] & <- & Hin). simpl.
  apply filter_In in Hin as [Hin Hm]. simpl in Hm.
  destruct (omap_In _ _ _ _ Ek Hin) as (c & _ & Ec).
  destruct (is_cell_fixed b r c) as [f| |] eqn:F; simpl in Ec; try discriminate.
  inversion Ec; subst. simpl. rewrite F. f_equal.
  now destruct f.
Qed.

Lemma reset_keeps (b0 : Board) : keeps (protects b0) reset.
Proof.
  intros b H. unfold reset, bind, read.
  destruct (get_modifiable_coordinates b) as [coords| |] eqn:E; simpl; try exact H.
  apply keeps_for_each; [|exact H].
  intros rc Hin. apply store_keeps.
  pose proof (get_modifiable_coordinates_modifiable b coords rc E Hin) as F.
  destruct H as [Hm _].
  unfold is_cell_fixed in *. rewrite <- Hm, F. discriminate.
Qed.

Lemma select_coordinates_keeps (P : Board -> Prop) (coord_costs : list (coord * Z)) :
  keeps (fun w => P (board w)) (select_coordinates coord_costs).
Proof.
  unfold select_coordinates. apply keeps_forever.
  unfold select_round, uniform_different, random_choices, random_choice.
  repeat keeps_step.
Qed.

Section Protection.

Variable pop_choice : list Z -> nat.
Variable Temp : Type.
Variable Tmul : Temp -> Temp -> Temp.
Variable metropolis : nat -> Z -> Temp -> outcome bool.

Lemma fill_row_keeps (b0 : Board) (row_idx : nat) (cols : list nat)
      (missing_numbers : list Z) :
  keeps (protects b0) (fill_row pop_choice row_idx cols missing_numbers).
Proof.
  revert missing_numbers; induction cols as [|c cols IH]; intros ms; simpl.
  - apply keeps_ret.
  - apply keeps_bind; [apply keeps_read|]. intros v.
    destruct (v =? 0)%Z; [|apply IH].
    apply keeps_bind; [apply keeps_read|]. intros [x ms'].
    apply keeps_bind; [apply set_value_keeps|]. intros _. apply IH.
Qed.

Lemma initialise_board_keeps (b0 : Board) :
  keeps (protects b0) (initialise_board pop_choice).
Proof.
  unfold initialise_board.
  apply keeps_bind; [apply keeps_read|]. intros n.
  apply keeps_for_each. intros r _.
  apply keeps_bind; [apply keeps_read|]. intros row_values.
  apply fill_row_keeps.
Qed.

Lemma propose_keeps (b0 : Board) (c1 c2 : coord) (st : annealing Temp) :
  keeps (fun w => protects b0 (board w)) (propose metropolis c1 c2 st).
Proof.
  unfold propose.
  repeat first [apply swap_values_keeps | keeps_step].
Qed.

Lemma iteration_keeps (b0 : Board) (T_initial : Temp) (max_stagnation : Z)
      (decay : Temp) (mc : list coord) (st : annealing Temp) :
  keeps (fun w => protects b0 (board w))
        (iteration Tmul metropolis T_initial max_stagnation decay mc st).
Proof.
  unfold iteration.
  apply keeps_bind; [apply keeps_on_board, keeps_read|]. intros cc.
  apply keeps_bind; [apply select_coordinates_keeps|]. intros [c1 c2].
  apply keeps_bind; [apply propose_keeps|]. intros cost.
  apply keeps_ret.
Qed.

Lemma loop_keeps (b0 : Board) (budget : nat) (T_initial : Temp)
      (max_iterations max_stagnation : Z) (decay : Temp) (mc : list coord)
      (st : annealing Temp) :
  keeps (fun w => protects b0 (board w))
        (loop Tmul metropolis budget T_initial max_iterations max_stagnation
              decay mc st).
Proof.
  revert st; induction budget as [|n IH]; intros st; simpl;
    destruct ((current_cost st >? 0)%Z && (iterations st <? max_iterations)%Z);
    try apply keeps_ret.
  - intros w H. exact H.
  - apply keeps_bind; [apply iteration_keeps|]. intros st'. apply IH.
Qed.

Lemma solver_keeps (b0 : Board) (T0 : Temp) (max_iterations max_stagnation : Z)
      (decay : Temp) :
  keeps (fun w => protects b0 (board w))
        (solver pop_choice Tmul metropolis T0 max_iterations max_stagnation decay).
Proof.
  unfold solver, anneal.
  apply keeps_bind; [|intros st; apply keeps_ret].
  apply keeps_bind; [apply keeps_on_board, initialise_board_keeps|]. intros _.
  apply keeps_bind; [apply keeps_on_board, keeps_read|]. intros cost.
  apply keeps_bind; [apply keeps_on_board, keeps_read|]. intros mc.
  apply loop_keeps.
Qed.

Lemma perform_keeps (b0 : Board) (c : call Temp) :
  keeps (fun w => protects b0 (board w))
        (perform pop_choice Tmul metropolis c).
Proof.
  destruct c; simpl.
  - apply keeps_on_board, set_value_keeps.
  - apply keeps_on_board, swap_values_keeps.
  - apply keeps_on_board, reset_keeps.
  - apply keeps_on_board, initialise_board_keeps.
  - apply keeps_bind; [apply solver_keeps | intros _; apply keeps_ret].
Qed.

(** C5: a write to a fixed coordinate changes nothing, and after any
    sequence of [set_value], [swap_values], [reset],
    [initialise_board] and [solver] calls, whatever their outcomes and
    whatever the random draws, the mask is the same and every fixed
    coordinate reads as it did. *)
Theorem fixed_cells_never_change (w : World) :
  (forall row col v,
      is_cell_fixed (board w) row col = Ok true ->
      set_value row col v (board w) = (Ok tt, board w))
  /\ forall cs : list (call Temp),
      let w' := perform_all pop_choice Tmul metropolis cs w in
      fixed_cells (board w') = fixed_cells (board w)
      /\ forall row col,
          is_cell_fixed (board w) row col = Ok true ->
          is_cell_fixed (board w') row col = Ok true
          /\ get_value (board w') row col = get_value (board w) row col.
Proof.
  split.
  - intros row col v F. apply is_cell_fixed_Ok in F as [I F].
    now rewrite set_value_eq, I, F.
  - intros cs.
    assert (H : protects (board w)
                  (board (perform_all pop_choice Tmul metropolis cs w))).
    { generalize (protects_refl (board w)).
      generalize w at 2 4. induction cs as [|c cs IH]; intros w1 H1; simpl.
      - exact H1.
      - apply IH. apply (perform_keeps (board w) c w1 H1). }
    destruct H as [Hm Hv]. simpl. split; [exact Hm|].
    intros row col F. split; [|now apply Hv].
    unfold is_cell_fixed in *. now rewrite Hm.
Qed.

End Protection.

(** ** The initial fill, on lists *)

Lemma digits_In (d : Z) : In d digits <-> (1 <= d <= 9)%Z.
Proof.
  unfold digits. rewrite in_map_iff. split.
  - intros (n & <- & Hn). apply in_seq in Hn. lia.
  - intros H. exists (Z.to_nat d). split; [lia|]. apply in_seq. lia.
Qed.

Lemma digits_NoDup : NoDup digits.
Proof.
  apply Injective_map_NoDup; [|apply seq_NoDup].
  intros x y E. lia.
Qed.

Lemma missing_of_In (row : list Z) (d : Z) :
  In d (missing_of row) <-> (1 <= d <= 9)%Z /\ ~ In d row.
Proof.
  unfold missing_of. fold digits. rewrite filter_In, digits_In, negb_true_iff.
  split; intros [H1 H2]; split; auto.
  - intros Hin. assert (E : existsb (Z.eqb d) row = true).
    { apply existsb_exists. exists d. split; [exact Hin | apply Z.eqb_refl]. }
    congruence.
  - destruct (existsb (Z.eqb d) row) eqn:E; [|reflexivity].
    apply existsb_exists in E as (x & Hx & Ex). apply Z.eqb_eq in Ex; subst.
    contradiction.
Qed.

Lemma missing_of_NoDup (row : list Z) : NoDup (missing_of row).
Proof. apply NoDup_filter, digits_NoDup. Qed.

Lemma remove_nth_split {A : Type} (i : nat) (s : list A) (d : A) :
  (i < length s)%nat ->
  exists l1 l2, s = l1 ++ nth i s d :: l2 /\ remove_nth i s = l1 ++ l2.
Proof.
  revert i; induction s as [|x s IH]; intros i H; simpl in H; [lia|].
  destruct i as [|j]; simpl.
  - exists [], s. auto.
  - destruct (IH j) as (l1 & l2 & E1 & E2); [lia|].
    exists (x :: l1), l2. simpl. split; congruence.
Qed.

Section Fill.

Variable pop_choice : list Z -> nat.

Lemma set_pop_Ok (s : list Z) :
  s <> [] ->
  exists x s',
    set_pop pop_choice s = Ok (x, s')
    /\ In x s
    /\ length s = S (length s')
    /\ (forall d, In d s' -> In d s)
    /\ (NoDup s -> NoDup s' /\ ~ In x s').
Proof.
  intros Hne. unfold set_pop.
  destruct s as [|a t] eqn:Es; [congruence|]. rewrite <- Es in *.
  set (i := (pop_choice s mod length s)%nat).
  assert (Hi : (i < length s)%nat).
  { apply Nat.mod_upper_bound. subst s; discriminate. }
  destruct (remove_nth_split i s 0%Z Hi) as (l1 & l2 & E1 & E2).
  exists (nth i s 0%Z), (remove_nth i s).
  split; [reflexivity|]. split; [now apply nth_In|]. rewrite E2. split.
  - rewrite E1 at 1. rewrite !length_app. simpl. lia.
  - split.
    + intros d Hd. rewrite E1. apply in_app_iff in Hd as [Hd|Hd];
        apply in_app_iff; simpl; auto.
    + intros Hnd. rewrite E1 in Hnd. now apply NoDup_remove in Hnd.
Qed.

Lemma set_pop_inv (s : list Z) (x : Z) (s' : list Z) :
  set_pop pop_choice s = Ok (x, s') ->
  In x s
  /\ length s = S (length s')
  /\ (forall d, In d s' -> In d s)
  /\ (NoDup s -> NoDup s' /\ ~ In x s').
Proof.
  intros E. destruct s as [|a t] eqn:Es; [discriminate|]. rewrite <- Es in *.
  destruct (set_pop_Ok s) as (x0 & s0 & E0 & H); [subst; discriminate|].
  rewrite E in E0. inversion E0; subst x0 s0. exact H.
Qed.

(** Enough missing numbers for the blanks: the fill does not raise. *)
Lemma filled_total (vals : list Z) (mask : list bool) (missing : list Z) :
  length mask = length vals ->
  (length (filter (fun v => (v =? 0)%Z) vals) <= length missing)%nat ->
  exists row', filled pop_choice vals mask missing = Ok row'
               /\ length row' = length vals.
Proof.
  revert mask missing; induction vals as [|v vs IH]; intros mask missing Hl Hz.
  - exists []. destruct mask; auto.
  - destruct mask as [|f fs]; [discriminate|]. simpl in *.
    destruct (v =? 0)%Z eqn:Ev.
    + simpl in Hz. destruct missing as [|m ms] eqn:Em; [simpl in Hz; lia|].
      rewrite <- Em in *.
      destruct (set_pop_Ok missing) as (x & s' & E & _ & Hlen & _);
        [subst; discriminate|].
      rewrite E. simpl.
      destruct (IH fs s') as (rest & Er & Lr); [lia | lia |].
      rewrite Er. simpl. eexists; split; [reflexivity|]. simpl. lia.
    + destruct (IH fs missing) as (rest & Er & Lr); [lia | lia |].
      rewrite Er. simpl. eexists; split; [reflexivity|]. simpl. lia.
Qed.

Lemma blanks_le_missing (vals : list Z) :
  length vals = 9%nat ->
  (length (filter (fun v => (v =? 0)%Z) vals) <= length (missing_of vals))%nat.
Proof.
  intros H9.
  set (here := fun d => existsb (Z.eqb d) vals).
  pose proof (filter_length here digits) as Hd.
  change (length digits) with 9%nat in Hd.
  pose proof (filter_length (fun v => (v =? 0)%Z) vals) as Hv.
  rewrite H9 in Hv.
  assert (Hp : (length (filter here digits)
                <= length (filter (fun v => negb (v =? 0)%Z) vals))%nat).
  { apply NoDup_incl_length; [apply NoDup_filter, digits_NoDup|].
    intros d Hin. apply filter_In in Hin as [Hdig Hh].
    apply digits_In in Hdig. unfold here in Hh.
    apply existsb_exists in Hh as (x & Hx & Ex). apply Z.eqb_eq in Ex; subst x.
    apply filter_In. split; [exact Hx|].
    apply negb_true_iff, Z.eqb_neq. lia. }
  change (missing_of vals) with (filter (fun x => negb (here x)) digits).
  lia.
Qed.

(** On a row whose mask is that of a fresh board, the fill keeps the
    row free of repeats and takes every blank away. *)
Lemma filled_fresh (vals pre missing row' : list Z) :
  filled pop_choice vals (map truthy vals) missing = Ok row' ->
  NoDup (filter nonzero (pre ++ vals)) ->
  NoDup missing ->
  (forall d, In d missing -> d <> 0%Z /\ ~ In d (pre ++ vals)) ->
  ~ In 0%Z pre ->
  NoDup (pre ++ row')
  /\ ~ In 0%Z (pre ++ row')
  /\ (forall d, In d row' -> In d vals \/ In d missing).
Proof.
  revert pre missing row'; induction vals as [|v vs IH];
    intros pre missing row' E Hnd Hm Hmiss Hpre; simpl in E.
  - inversion E; subst. rewrite app_nil_r in *.
    pose proof (filter_nonzero_id pre Hpre) as F.
    change (filter nonzero pre = pre) in F. rewrite F in Hnd.
    split; [exact Hnd|]. split; [exact Hpre|]. intros d [].
  - destruct (v =? 0)%Z eqn:Ev.
    + apply Z.eqb_eq in Ev; subst v. simpl in E.
      destruct (set_pop pop_choice missing) as [[x m']| |] eqn:Ep;
        simpl in E; try discriminate.
      destruct (filled pop_choice vs (map truthy vs) m') as [rest| |] eqn:Er;
        simpl in E; try discriminate.
      inversion E; subst row'; clear E.
      destruct (set_pop_inv missing x m' Ep) as (Hx & _ & Hsub & Hnd').
      destruct (Hnd' Hm) as [Hm' Hxm'].
      destruct (Hmiss x Hx) as [Hx0 Hxfresh].
      assert (Hfx : nonzero x = true)
        by (unfold nonzero; now apply negb_true_iff, Z.eqb_neq).
      destruct (IH (pre ++ [x]) m' rest Er) as (N & Z0 & I).
      * rewrite <- app_assoc. simpl.
        rewrite filter_app in *. simpl in *. rewrite Hfx.
        apply (Permutation_NoDup
                 (Permutation_middle (filter nonzero pre) (filter nonzero vs) x)).
        constructor; [|exact Hnd].
        intros Hin. apply Hxfresh.
        apply in_app_iff in Hin as [Hin|Hin]; apply filter_In in Hin as [Hin _];
          apply in_app_iff; simpl; auto.
      * exact Hm'.
      * intros d Hd. destruct (Hmiss d (Hsub d Hd)) as [Hd0 Hdf].
        split; [exact Hd0|]. rewrite <- app_assoc. simpl.
        intros Hin. apply in_app_iff in Hin as [Hin|[Hin|Hin]].
        -- apply Hdf, in_app_iff; auto.
        -- subst d. contradiction.
        -- apply Hdf, in_app_iff; simpl; auto.
      * intros Hin. apply in_app_iff in Hin as [Hin|[Hin|[]]]; auto.
      * rewrite <- app_assoc in N, Z0. simpl in N, Z0.
        repeat split; auto.
        intros d [<-|Hd]; [now right|].
        destruct (I d Hd) as [Hv|Hv]; [left; now right | right; auto].
    + destruct (filled pop_choice vs (map truthy vs) missing) as [rest| |] eqn:Er;
        simpl in E; try discriminate.
      inversion E; subst row'; clear E.
      destruct (IH (pre ++ [v]) missing rest Er) as (N & Z0 & I).
      * now rewrite <- app_assoc.
      * exact Hm.
      * intros d Hd. rewrite <- app_assoc. now apply Hmiss.
      * intros Hin. apply in_app_iff in Hin as [Hin|[Hin|[]]]; auto.
        subst v. discriminate.
      * rewrite <- app_assoc in N, Z0. simpl in N, Z0.
        repeat split; auto.
        intros d [<-|Hd]; [left; now left|].
        destruct (I d Hd) as [Hv|Hv]; [left; now right | right; auto].
Qed.

End Fill.

(** ** The initial fill, on the board *)

Lemma replace_same {A : Type} (l : list A) (i : nat) (d : A) :
  replace l i (nth i l d) = l.
Proof.
  revert i; induction l as [|x l IH]; intros [|j]; simpl; auto.
  now rewrite IH.
Qed.

Lemma replace_middle {A : Type} (pre post : list A) (a x : A) :
  replace (pre ++ a :: post) (length pre) x = pre ++ x :: post.
Proof.
  induction pre as [|p pre IH]; simpl; [reflexivity|]. now rewrite IH.
Qed.

Lemma replace_replace {A : Type} (l : list A) (i : nat) (x y : A) :
  replace (replace l i x) i y = replace l i y.
Proof.
  revert i; induction l as [|a l IH]; intros [|j]; simpl; auto.
  now rewrite IH.
Qed.

Lemma replace_nth_same {A : Type} (l : list A) (i : nat) (v d : A) :
  (i < length l)%nat -> nth i (replace l i v) d = v.
Proof.
  intros H. rewrite replace_nth, Nat.eqb_refl.
  apply Nat.ltb_lt in H. now rewrite H.
Qed.

Section FillBoard.

Variable pop_choice : list Z -> nat.

Lemma fill_row_filled (r : nat) (vals : list Z) :
  forall (mask : list bool) (pre : list Z) (premask : list bool) (b : Board)
         (missing row' : list Z),
    (r < length (grid b))%nat ->
    (r < length (fixed_cells b))%nat ->
    nth r (grid b) [] = pre ++ vals ->
    nth r (fixed_cells b) [] = premask ++ mask ->
    length premask = length pre ->
    length mask = length vals ->
    filled pop_choice vals mask missing = Ok row' ->
    fill_row pop_choice r (seq (length pre) (length vals)) missing b
    = (Ok tt, mkBoard (replace (grid b) r (pre ++ row')) (fixed_cells b)).
Proof.
  induction vals as [|v vs IH];
    intros mask pre premask b missing row' Hr Hrm Hrow Hmask Hlp Hlm E.
  - simpl in E. inversion E; subst row'. simpl.
    rewrite app_nil_r in *. rewrite <- Hrow, replace_same.
    now destruct b.
  - destruct mask as [|f fs]; [discriminate Hlm|].
    assert (G : get_value b r (length pre) = Ok v).
    { apply get_value_Ok. unfold inside, cell; simpl. rewrite Hrow.
      split; [|apply nth_middle].
      apply andb_true_iff; split; apply Nat.ltb_lt; [exact Hr|].
      rewrite length_app; simpl; lia. }
    assert (F : is_cell_fixed b r (length pre) = Ok f).
    { apply is_cell_fixed_Ok. unfold inside, flag; simpl. rewrite Hmask, <- Hlp.
      split; [|apply nth_middle].
      apply andb_true_iff; split; apply Nat.ltb_lt; [exact Hrm|].
      rewrite length_app; simpl; lia. }
    assert (Hnext : forall (u : Z) (g : list (list Z)),
               nth r g [] = pre ++ u :: vs ->
               nth r g [] = (pre ++ [u]) ++ vs)
      by (intros u g ->; now rewrite <- app_assoc).
    assert (Hmnext : nth r (fixed_cells b) [] = (premask ++ [f]) ++ fs)
      by (rewrite Hmask; now rewrite <- app_assoc).
    assert (Hl1 : forall u : Z, length (pre ++ [u]) = S (length pre))
      by (intros u; rewrite length_app; simpl; lia).
    assert (Hl2 : length (premask ++ [f]) = S (length pre))
      by (rewrite length_app; simpl; lia).
    change (seq (length pre) (length (v :: vs)))
      with (length pre :: seq (S (length pre)) (length vs)).
    cbn [fill_row]. unfold bind at 1. unfold read at 1. rewrite G.
    simpl in E. destruct (v =? 0)%Z eqn:Ev.
    + destruct (set_pop pop_choice missing) as [[x m']| |] eqn:Ep;
        simpl in E; try discriminate.
      destruct (filled pop_choice vs fs m') as [rest| |] eqn:Er;
        simpl in E; try discriminate.
      inversion E; subst row'; clear E. cbv iota.
      unfold bind at 1. unfold read at 1.
      unfold bind at 1. rewrite set_value_eq.
      apply is_cell_fixed_Ok in F as [FI FF]. rewrite FI, FF.
      destruct f.
      * rewrite <- (Hl1 v).
        rewrite (IH fs (pre ++ [v]) (premask ++ [true]) b m' rest);
          auto; try (rewrite Hl1, Hl2; reflexivity); try (simpl in Hlm; lia).
        now rewrite <- app_assoc.
      * rewrite store_eq.
        apply get_value_Ok in G as [GI _]. rewrite GI.
        set (b1 := mkBoard (upd (grid b) r (length pre) x) (fixed_cells b)).
        assert (Hrow1 : nth r (grid b1) [] = pre ++ x :: vs).
        { unfold b1, upd; simpl. rewrite replace_nth_same by exact Hr.
          rewrite Hrow. apply replace_middle. }
        rewrite <- (Hl1 x).
        rewrite (IH fs (pre ++ [x]) (premask ++ [false]) b1 m' rest);
          auto; try (rewrite Hl1, Hl2; reflexivity); try (simpl in Hlm; lia).
        -- unfold b1, upd; simpl. rewrite replace_replace.
           now rewrite <- app_assoc.
        -- unfold b1; simpl. now rewrite upd_length.
    + destruct (filled pop_choice vs fs missing) as [rest| |] eqn:Er;
        simpl in E; try discriminate.
      inversion E; subst row'; clear E. cbv iota.
      rewrite <- (Hl1 v).
      rewrite (IH fs (pre ++ [v]) (premask ++ [f]) b missing rest);
        auto; try (rewrite Hl1, Hl2; reflexivity); try (simpl in Hlm; lia).
      now rewrite <- app_assoc.
Qed.

End FillBoard.

Section InitialiseBoard.

Variable pop_choice : list Z -> nat.

Lemma rows_filled (todo : list (list Z)) :
  forall (tm : list (list bool)) (done : list (list Z)) (dm : list (list bool))
         (b : Board) (todo' : list (list Z)),
    grid b = done ++ todo ->
    fixed_cells b = dm ++ tm ->
    length dm = length done ->
    length tm = length todo ->
    Forall (fun row => length row = 9%nat) todo ->
    Forall (fun mask => length mask = 9%nat) tm ->
    filled_rows pop_choice todo tm = Ok todo' ->
    for_each (seq (length done) (length todo))
             (fun row_idx =>
                row_values <- read (fun b => item (get_rows b) row_idx) ;;
                fill_row pop_choice row_idx range9 (missing_of row_values)) b
    = (Ok tt, mkBoard (done ++ todo') (fixed_cells b)).
Proof.
  induction todo as [|row todo IH];
    intros tm done dm b todo' Hg Hm Hld Hlt Hrows Hmasks E.
  - simpl in E. inversion E; subst todo'. simpl.
    rewrite app_nil_r in *. rewrite <- Hg. now destruct b.
  - destruct tm as [|mask tm]; [discriminate Hlt|].
    inversion Hrows as [|? ? Hrow9 Hrows']; subst.
    inversion Hmasks as [|? ? Hmask9 Hmasks']; subst.
    simpl in E.
    destruct (filled pop_choice row mask (missing_of row)) as [row'| |] eqn:Er;
      simpl in E; try discriminate.
    destruct (filled_rows pop_choice todo tm) as [rest| |] eqn:Et;
      simpl in E; try discriminate.
    inversion E; subst todo'; clear E.
    change (seq (length done) (length (row :: todo)))
      with (length done :: seq (S (length done)) (length todo)).
    cbn [for_each]. unfold bind at 1. unfold bind at 1. unfold read at 1.
    assert (Hk : (length done < length (grid b))%nat)
      by (rewrite Hg, length_app; simpl; lia).
    assert (Hkm : (length done < length (fixed_cells b))%nat)
      by (rewrite Hm, length_app; simpl; lia).
    assert (Hnth : nth (length done) (grid b) [] = row)
      by (rewrite Hg; apply nth_middle).
    assert (Hnthm : nth (length done) (fixed_cells b) [] = mask)
      by (rewrite Hm, <- Hld; apply nth_middle).
    change (item (get_rows b) (length done))
      with (item (grid b) (length done)).
    rewrite (item_nth (grid b) (length done) [] Hk), Hnth.
    pose proof (fill_row_filled pop_choice (length done) row mask [] [] b
                  (missing_of row) row' Hk Hkm Hnth Hnthm eq_refl) as Hfill.
    rewrite Hrow9 in Hfill. change (seq (length []) 9) with range9 in Hfill.
    rewrite Hfill by (auto; lia). simpl app.
    set (b1 := mkBoard (replace (grid b) (length done) row') (fixed_cells b)).
    assert (Hg1 : grid b1 = (done ++ [row']) ++ todo).
    { unfold b1; simpl. rewrite Hg, replace_middle. now rewrite <- app_assoc. }
    assert (Hl1 : length (done ++ [row']) = S (length done))
      by (rewrite length_app; simpl; lia).
    rewrite <- Hl1.
    rewrite (IH tm (done ++ [row']) (dm ++ [mask]) b1 rest); auto.
    + now rewrite <- app_assoc.
    + unfold b1; simpl. rewrite Hm. now rewrite <- app_assoc.
    + rewrite Hl1, length_app; simpl; lia.
Qed.

Lemma initialise_board_filled (b : Board) (g' : list (list Z)) :
  length (fixed_cells b) = length (grid b) ->
  Forall (fun row => length row = 9%nat) (grid b) ->
  Forall (fun mask => length mask = 9%nat) (fixed_cells b) ->
  filled_rows pop_choice (grid b) (fixed_cells b) = Ok g' ->
  initialise_board pop_choice b = (Ok tt, mkBoard g' (fixed_cells b)).
Proof.
  intros Hl Hr Hm E. unfold initialise_board, bind at 1, read at 1, get_rows.
  apply (rows_filled (grid b) (fixed_cells b) [] [] b g'); auto.
Qed.

Lemma filled_rows_total (rows : list (list Z)) :
  forall masks : list (list bool),
    length masks = length rows ->
    Forall (fun row => length row = 9%nat) rows ->
    Forall (fun mask => length mask = 9%nat) masks ->
    exists g', filled_rows pop_choice rows masks = Ok g'
               /\ length g' = length rows
               /\ Forall (fun row => length row = 9%nat) g'.
Proof.
  induction rows as [|row rows IH]; intros masks Hl Hr Hm.
  - exists []. destruct masks; simpl; auto.
  - destruct masks as [|mask masks]; [discriminate Hl|].
    inversion Hr as [|? ? Hr9 Hr']; subst.
    inversion Hm as [|? ? Hm9 Hm']; subst.
    destruct (filled_total pop_choice row mask (missing_of row))
      as (row' & Er & Lr); [congruence | now apply blanks_le_missing |].
    destruct (IH masks) as (rest & Et & Lt & Ft); auto.
    exists (row' :: rest). simpl. rewrite Er; simpl. rewrite Et; simpl.
    repeat split; auto. constructor; [congruence | exact Ft].
Qed.

(** On a 9x9 board, whatever it holds, the initial fill returns, and
    leaves a 9x9 board with the same mask. *)
Lemma initialise_board_total (b : Board) :
  well_formed b ->
  exists b', initialise_board pop_choice b = (Ok tt, b')
             /\ fixed_cells b' = fixed_cells b
             /\ well_formed b'.
Proof.
  intros [[Hg9 Hgr] [Hm9 Hmr]].
  destruct (filled_rows_total (grid b) (fixed_cells b)) as (g' & E & L & F);
    auto; [congruence|].
  exists (mkBoard g' (fixed_cells b)).
  split; [apply initialise_board_filled; auto; congruence|].
  split; [reflexivity|].
  split; split; simpl; auto. congruence.
Qed.

Lemma filled_rows_fresh (g g' : list (list Z)) :
  Forall (fun row => length row = 9%nat
                     /\ Forall (fun v => 0 <= v <= 9)%Z row
                     /\ NoDup (filter nonzero row)) g ->
  filled_rows pop_choice g (map (map truthy) g) = Ok g' ->
  Forall (fun row => Permutation row digits) g'.
Proof.
  revert g'; induction g as [|row g IH]; intros g' H E; simpl in E.
  - inversion E; constructor.
  - inversion H as [|? ? (H9 & Hdig & Hnd) H']; subst.
    destruct (filled pop_choice row (map truthy row) (missing_of row))
      as [row'| |] eqn:Er; simpl in E; try discriminate.
    destruct (filled_rows pop_choice g (map (map truthy) g)) as [rest| |] eqn:Et;
      simpl in E; try discriminate.
    inversion E; subst g'; clear E.
    constructor; [|now apply IH].
    destruct (filled_fresh pop_choice row [] (missing_of row) row' Er)
      as (N & Z0 & I); simpl; auto.
    + apply missing_of_NoDup.
    + intros d Hd. apply missing_of_In in Hd as [Hd Hn]. split; [lia|exact Hn].
    + simpl in N, Z0.
      destruct (filled_total pop_choice row (map truthy row) (missing_of row))
        as (row2 & Er2 & L2);
        [apply length_map | now apply blanks_le_missing |].
      assert (row2 = row') by congruence. subst row2.
      apply NoDup_Permutation_bis; [exact N | |].
      * change (length digits) with 9%nat. lia.
      * intros d Hd. apply digits_In.
        assert (d <> 0%Z) by (intros ->; contradiction).
        destruct (I d Hd) as [Hv|Hv].
        -- rewrite Forall_forall in Hdig. specialize (Hdig d Hv). lia.
        -- apply missing_of_In in Hv. lia.
Qed.

(** C4: on a board just built from a grid whose rows have nine entries
    among 0..9 and no repeated nonzero digit, [initialise_board]
    returns and leaves every row a permutation of 1..9, hence of row
    cost 0, with the mask as it was. *)
Theorem initialise_board_fills_rows (initial_grid : option (list (list Z))) :
  let b := Board_init initial_grid in
  Forall (fun row => length row = 9%nat
                     /\ Forall (fun v => 0 <= v <= 9)%Z row
                     /\ NoDup (filter nonzero row)) (grid b) ->
  exists b',
    initialise_board pop_choice b = (Ok tt, b')
    /\ fixed_cells b' = fixed_cells b
    /\ length (grid b') = length (grid b)
    /\ Forall (fun row => Permutation row digits /\ group_cost row = 0%Z)
              (grid b').
Proof.
  intros b H.
  assert (Hmask : fixed_cells b = map (map truthy) (grid b)) by reflexivity.
  assert (Hr : Forall (fun row => length row = 9%nat) (grid b)).
  { apply Forall_forall. intros row Hin. rewrite Forall_forall in H.
    now destruct (H row Hin). }
  assert (Hm : Forall (fun mask => length mask = 9%nat) (fixed_cells b)).
  { rewrite Hmask. apply Forall_forall. intros mask Hin.
    apply in_map_iff in Hin as (row & <- & Hin). rewrite length_map.
    rewrite Forall_forall in Hr. now apply Hr. }
  assert (Hl : length (fixed_cells b) = length (grid b))
    by (rewrite Hmask; apply length_map).
  destruct (filled_rows_total (grid b) (fixed_cells b) Hl Hr Hm)
    as (g' & E & L & F).
  exists (mkBoard g' (fixed_cells b)).
  split; [now apply initialise_board_filled|].
  split; [reflexivity|]. split; [exact L|]. simpl.
  rewrite Hmask in E. pose proof (filled_rows_fresh (grid b) g' H E) as P.
  apply Forall_forall. intros row Hin. rewrite Forall_forall in P.
  specialize (P row Hin). split; [exact P|].
  apply group_cost_zero_iff. split.
  - apply (Permutation_NoDup (Permutation_sym P)), digits_NoDup.
  - intros H0. apply (Permutation_in _ P), digits_In in H0. lia.
Qed.

End InitialiseBoard.

Lemma initialise_board_fills_rows_witness :
  exists b',
    initialise_board pop_smallest lone_blank = (Ok tt, b')
    /\ fixed_cells b' = fixed_cells lone_blank
    /\ length (grid b') = length (grid lone_blank)
    /\ Forall (fun row => Permutation row digits /\ group_cost row = 0%Z)
              (grid b').
Proof.
  apply (initialise_board_fills_rows pop_smallest (Some lone_blank_grid)).
  repeat (apply Forall_cons || apply Forall_nil);
    (split; [reflexivity|]; split;
     [repeat constructor; lia | apply nodup_length_eq; reflexivity]).
Defined.

(** ** The solver without a round *)

Lemma get_modifiable_coordinates_total (b : Board) :
  shape9 (fixed_cells b) -> exists l, get_modifiable_coordinates b = Ok l.
Proof.
  intros Hs. unfold get_modifiable_coordinates.
  set (keep := fun r c : nat => (negb (flag (fixed_cells b) (r, c)), (r, c))).
  rewrite (omap_Ok _ (fun r => map snd (filter fst (map (keep r) range9)))).
  - simpl. eexists; reflexivity.
  - intros r Hr. apply in_seq in Hr.
    rewrite (omap_Ok _ (keep r)); [reflexivity|].
    intros c Hc. apply in_seq in Hc.
    rewrite is_cell_fixed_eq.
    assert (I : inside (fixed_cells b) r c = true).
    { unfold inside. apply andb_true_iff; split; apply Nat.ltb_lt.
      - destruct Hs; lia.
      - rewrite shape9_row; auto; lia. }
    now rewrite I.
Qed.

Lemma filled_no_blank (pop_choice : list Z -> nat) (vals : list Z) :
  forall (mask : list bool) (missing : list Z),
    length mask = length vals -> ~ In 0%Z vals ->
    filled pop_choice vals mask missing = Ok vals.
Proof.
  induction vals as [|v vs IH]; intros mask missing Hl Hz.
  - reflexivity.
  - destruct mask as [|f fs]; [discriminate Hl|]. simpl.
    destruct (v =? 0)%Z eqn:Ev.
    + apply Z.eqb_eq in Ev. exfalso. apply Hz. now left.
    + rewrite IH; [reflexivity | simpl in Hl; lia |].
      intros H. apply Hz. now right.
Qed.

Lemma filled_rows_no_blank (pop_choice : list Z -> nat) (rows : list (list Z)) :
  forall masks : list (list bool),
    length masks = length rows ->
    Forall (fun row => length row = 9%nat /\ ~ In 0%Z row) rows ->
    Forall (fun mask => length mask = 9%nat) masks ->
    filled_rows pop_choice rows masks = Ok rows.
Proof.
  induction rows as [|row rows IH]; intros masks Hl Hr Hm.
  - reflexivity.
  - destruct masks as [|mask masks]; [discriminate Hl|].
    inversion Hr as [|? ? [H9 Hz] Hr']; subst.
    inversion Hm as [|? ? Hm9 Hm']; subst. simpl.
    rewrite filled_no_blank by (auto; congruence). simpl.
    rewrite IH; auto.
Qed.

Section NoRound.

Variable pop_choice : list Z -> nat.
Variable Temp : Type.
Variable Tmul : Temp -> Temp -> Temp.
Variable metropolis : nat -> Z -> Temp -> outcome bool.

Lemma loop_solved (budget : nat) (T_initial : Temp)
      (max_iterations max_stagnation : Z) (decay : Temp) (mc : list coord)
      (st : annealing Temp) (w : World) :
  ((current_cost st >? 0)%Z && (iterations st <? max_iterations)%Z) = false ->
  loop Tmul metropolis budget T_initial max_iterations max_stagnation decay mc st w
  = (Ok st, w).
Proof.
  intros H. destruct budget; simpl; now rewrite H.
Qed.

Lemma initialise_board_no_blank (b : Board) :
  well_formed b ->
  (forall row col, (row < 9)%nat -> (col < 9)%nat -> get_value b row col <> Ok 0%Z) ->
  initialise_board pop_choice b = (Ok tt, b).
Proof.
  intros [[Hg9 Hgr] [Hm9 Hmr]] Hfull.
  replace (Ok tt, b) with (Ok tt, mkBoard (grid b) (fixed_cells b))
    by now destruct b.
  apply initialise_board_filled; auto; [congruence|].
  apply filled_rows_no_blank; auto; [congruence|].
  apply Forall_forall. intros row Hin. split.
  - rewrite Forall_forall in Hgr. now apply Hgr.
  - intros H0.
    destruct (row_entry (grid b) row 0%Z (conj Hg9 Hgr) Hin H0)
      as (r & c & Hr & Hc & E).
    apply (Hfull r c Hr Hc).
    rewrite (get_value_cell b r c (conj Hg9 Hgr) Hr Hc). now rewrite <- E.
Qed.

(** C9, as the code has it: with [max_iterations = 0] the solver fills
    the rows, runs no round and consumes no draw, and returns whether
    the cost of the filled board is 0; on a board that is already
    valid and without a blank it returns [True] for every budget,
    with cost 0, after 0 rounds, and leaves the board as it was. *)
Theorem solver_without_round (w : World) (T0 : Temp) (max_stagnation : Z)
        (decay : Temp) :
  well_formed (board w) ->
  (exists b1 c,
      initialise_board pop_choice (board w) = (Ok tt, b1)
      /\ cost_function b1 = Ok c
      /\ anneal pop_choice Tmul metropolis T0 0 max_stagnation decay w
         = (Ok (mkAnnealing T0 c c 0 0), mkWorld b1 (tape w))
      /\ solver pop_choice Tmul metropolis T0 0 max_stagnation decay w
         = (Ok (c =? 0)%Z, mkWorld b1 (tape w)))
  /\ (is_valid (board w) = Ok true ->
      (forall row col, (row < 9)%nat -> (col < 9)%nat ->
                       get_value (board w) row col <> Ok 0%Z) ->
      forall max_iterations : Z,
        anneal pop_choice Tmul metropolis T0 max_iterations max_stagnation decay w
        = (Ok (mkAnnealing T0 0 0 0 0), w)
        /\ solver pop_choice Tmul metropolis T0 max_iterations max_stagnation
                  decay w
           = (Ok true, w)).
Proof.
  intros Hwf. split.
  - destruct (initialise_board_total pop_choice (board w) Hwf)
      as (b1 & Ei & Hm & [Hg1 Hm1]).
    pose proof (cost_function_groups b1 Hg1) as Ec.
    destruct (get_modifiable_coordinates_total b1 Hm1) as (mc & Emc).
    exists b1, (sum (map group_cost (groups_of b1))).
    split; [exact Ei|]. split; [exact Ec|].
    assert (Ea : anneal pop_choice Tmul metropolis T0 0 max_stagnation decay w
                 = (Ok (mkAnnealing T0 (sum (map group_cost (groups_of b1)))
                                    (sum (map group_cost (groups_of b1))) 0 0),
                    mkWorld b1 (tape w))).
    { unfold anneal, bind, on_board, read. rewrite Ei. cbn [board tape].
      rewrite Ec. cbn [board tape]. rewrite Emc.
      apply loop_solved. simpl. apply andb_false_r. }
    split; [exact Ea|].
    unfold solver, bind. now rewrite Ea.
  - intros Hv Hfull max_iterations.
    pose proof (initialise_board_no_blank (board w) Hwf Hfull) as Ei.
    assert (Ec : cost_function (board w) = Ok 0%Z)
      by (apply total_cost_zero; [apply Hwf | auto]).
    destruct (get_modifiable_coordinates_total (board w) (proj2 Hwf))
      as (mc & Emc).
    assert (Ea : anneal pop_choice Tmul metropolis T0 max_iterations
                        max_stagnation decay w
                 = (Ok (mkAnnealing T0 0 0 0 0), w)).
    { unfold anneal, bind, on_board, read. rewrite Ei. cbn [board tape].
      rewrite Ec. cbn [board tape]. rewrite Emc.
      replace (mkWorld (board w) (tape w)) with w by now destruct w.
      apply loop_solved. reflexivity. }
    split; [exact Ea|].
    unfold solver, bind. now rewrite Ea.
Qed.

End NoRound.

Lemma solver_without_round_witness :
  (exists b1 c,
      initialise_board pop_smallest solved_board = (Ok tt, b1)
      /\ cost_function b1 = Ok c
      /\ anneal pop_smallest no_temp refuse tt 0 1500 tt (mkWorld solved_board [])
         = (Ok (mkAnnealing tt c c 0 0), mkWorld b1 [])
      /\ solver pop_smallest no_temp refuse tt 0 1500 tt (mkWorld solved_board [])
         = (Ok (c =? 0)%Z, mkWorld b1 []))
  /\ (anneal pop_smallest no_temp refuse tt 1000000 1500 tt (mkWorld solved_board [])
      = (Ok (mkAnnealing tt 0 0 0 0), mkWorld solved_board [])
      /\ solver pop_smallest no_temp refuse tt 1000000 1500 tt
                (mkWorld solved_board [])
         = (Ok true, mkWorld solved_board [])).
Proof.
  assert (Hwf : well_formed (board (mkWorld solved_board []))).
  { split; split; try reflexivity; repeat constructor. }
  destruct (solver_without_round pop_smallest unit no_temp refuse
              (mkWorld solved_board []) tt 1500 tt Hwf) as [H1 H2].
  split; [exact H1|].
  apply H2.
  - reflexivity.
  - intros row col Hr Hc.
    do 9 (destruct row as [|row]; [do 9 (destruct col as [|col]; [discriminate|]); lia|]).
    lia.
Defined.

(** C9 as stated fails: a grid with one blank is not solved, its cost is
    3, yet the solver returns [True] on it with [max_iterations = 0],
    because the row fill that precedes the loop completes it. *)
Lemma solver_without_round_counterexample :
  cost_function one_blank = Ok 3%Z
  /\ is_valid one_blank = Ok true
  /\ get_value one_blank 0 0 = Ok 0%Z
  /\ fst (solver pop_smallest no_temp refuse tt 0 1500 tt (mkWorld one_blank []))
     = Ok true.
Proof.
  repeat split.
Qed.

Lemma fixed_cells_never_change_witness :
  set_value 0 0 7%Z one_given = (Ok tt, one_given)
  /\ let w' := perform_all pop_smallest no_temp refuse
                 [CallSetValue unit 0 0 7%Z;
                  CallSwapValues unit (0, 0)%nat (0, 1)%nat;
                  CallReset unit; CallInitialiseBoard unit;
                  CallSolver tt 2 1500 tt]
                 (mkWorld one_given [0; 1; 2; 3]%nat) in
     is_cell_fixed (board w') 0 0 = Ok true
     /\ get_value (board w') 0 0 = Ok 5%Z.
Proof.
  destruct (fixed_cells_never_change pop_smallest unit no_temp refuse
              (mkWorld one_given [0; 1; 2; 3]%nat)) as [H1 H2].
  split.
  - apply H1. reflexivity.
  - apply H2. reflexivity.
Defined.

(** ** The pair the selector returns *)

Section Yields.

Context {S : Type}.

Lemma yields_ret {A : Type} (Q : A -> Prop) (a : A) :
  Q a -> yields Q (@ret S A a).
Proof. intros H s a' s' E. inversion E; subst. exact H. Qed.

Lemma yields_raise {A : Type} (Q : A -> Prop) (e : exn) :
  yields Q (@raise S A e).
Proof. intros s a s' E. discriminate E. Qed.

Lemma yields_bind {A B : Type} (Q1 : A -> Prop) (Q : B -> Prop)
      (m : M S A) (f : A -> M S B) :
  yields Q1 m -> (forall a, Q1 a -> yields Q (f a)) -> yields Q (bind m f).
Proof.
  intros Hm Hf s b s' E. unfold bind in E.
  destruct (m s) as [[a|e|] s1] eqn:Em; try discriminate.
  apply (Hf a (Hm s a s1 Em) s1 b s' E).
Qed.

Lemma yields_any {A : Type} (m : M S A) : yields (fun _ => True) m.
Proof. intros s a s' _. exact I. Qed.

Lemma yields_while_true {A : Type} (Q : A -> Prop) (fuel : nat)
      (body : M S (option A)) :
  yields (fun o => forall a, o = Some a -> Q a) body ->
  yields Q (while_true fuel body).
Proof.
  intros Hb. induction fuel as [|n IH]; simpl.
  - intros s a s' E. discriminate E.
  - apply (yields_bind (fun o => forall a, o = Some a -> Q a)); [exact Hb|].
    intros [a|] Ha; [apply yields_ret; now apply Ha | exact IH].
Qed.

End Yields.

Lemma yields_forever {A : Type} (Q : A -> Prop) (body : M World (option A)) :
  yields (fun o => forall a, o = Some a -> Q a) body -> yields Q (forever body).
Proof.
  intros Hb w a w' E. unfold forever in E.
  apply (yields_while_true Q _ body Hb w a w' E).
Qed.

Lemma yields_item (population : list coord) (i : nat) :
  yields (fun c => In c population)
         (read (fun _ : World => item population i)).
Proof.
  intros w c w' E. unfold read in E. inversion E as [[Ei Ew]].
  apply item_Ok in Ei. now apply nth_error_In in Ei.
Qed.

Lemma random_choice_yields (population : list coord) :
  yields (fun c => In c population) (random_choice population).
Proof.
  unfold random_choice. destruct population as [|p l]; [apply yields_raise|].
  apply (yields_bind (fun _ => True)); [apply yields_any|].
  intros u _. apply yields_item.
Qed.

Lemma random_choices_yields (population : list coord) (weights : list Z) :
  yields (fun c => In c population) (random_choices population weights).
Proof.
  unfold random_choices.
  destruct (negb _); [apply yields_raise|].
  destruct (rev _) as [|total l]; [apply yields_raise|].
  destruct (negb (in_float_range total)); [apply yields_raise|].
  destruct (total <=? 0)%Z; [apply yields_raise|].
  apply (yields_bind (fun _ => True)); [apply yields_any|].
  intros u _. apply yields_item.
Qed.

Lemma select_round_yields (coords : list coord) (weights : list Z) :
  yields (fun o => forall p, o = Some p -> In (fst p) coords /\ In (snd p) coords)
         (select_round coords weights).
Proof.
  unfold select_round.
  apply (yields_bind (fun c => In c coords)); [apply random_choices_yields|].
  intros [row1 col1] H1.
  destruct (map _ (filter _ range9)) as [|rc rcs] eqn:Er.
  - apply (yields_bind (fun p => In (fst p) coords /\ In (snd p) coords)).
    + unfold uniform_different. apply yields_forever.
      apply (yields_bind (fun c => In c coords)); [apply random_choice_yields|].
      intros coord2 H2.
      apply (yields_bind (fun _ => True)); [apply yields_any|]. intros v2 _.
      apply (yields_bind (fun _ => True)); [apply yields_any|]. intros v1 _.
      destruct (negb (v2 =? v1)%Z).
      * apply yields_ret. intros p E. inversion E; subst. auto.
      * apply yields_ret. discriminate.
    + intros p Hp. apply yields_ret. intros q E. inversion E; subst. exact Hp.
  - rewrite <- Er.
    apply (yields_bind (fun c => In c coords)).
    + intros w c w' E. apply random_choice_yields in E.
      apply in_map_iff in E as (col & <- & Hcol).
      apply filter_In in Hcol as [_ Hcol].
      apply andb_true_iff in Hcol as [_ Hcol].
      apply existsb_exists in Hcol as (x & Hx & Ex).
      apply coord_eqb_eq in Ex. now subst x.
    + intros coord2 H2. apply yields_ret. intros p E. inversion E; subst. auto.
Qed.

(** Both coordinates of a selected pair are keys of the cost dictionary,
    and selecting leaves the board alone. *)
Lemma select_coordinates_from_keys (coord_costs : list (coord * Z)) (w w' : World)
      (c1 c2 : coord) :
  select_coordinates coord_costs w = (Ok (c1, c2), w') ->
  In c1 (map fst coord_costs) /\ In c2 (map fst coord_costs)
  /\ board w' = board w.
Proof.
  intros E.
  pose proof (yields_forever _ _ (select_round_yields (map fst coord_costs)
                                    (map snd coord_costs)) w (c1, c2) w' E) as [H1 H2].
  split; [exact H1|]. split; [exact H2|].
  pose proof (select_coordinates_keeps (fun b => b = board w) coord_costs w eq_refl)
    as K.
  now rewrite E in K.
Qed.

(** ** Accepting and reverting *)

Lemma get_modifiable_coordinates_in_range (b : Board) (l : list coord) (rc : coord) :
  get_modifiable_coordinates b = Ok l -> In rc l ->
  (fst rc < 9)%nat /\ (snd rc < 9)%nat.
Proof.
  unfold get_modifiable_coordinates. intros E Hin.
  destruct (omap _ range9) as [rows| |] eqn:Er; simpl in E; try discriminate.
  inversion E; subst l; clear E.
  apply in_concat in Hin as (row & Hrow & Hin).
  destruct (omap_In _ _ _ _ Er Hrow) as (r & Hr & Erow).
  destruct (omap _ range9) as [keep| |] eqn:Ek in Erow; simpl in Erow; try discriminate.
  inversion Erow; subst row; clear Erow.
  apply in_map_iff in Hin as ([m rc'] & <- & Hin). simpl.
  apply filter_In in Hin as [Hin _].
  destruct (omap_In _ _ _ _ Ek Hin) as (c & Hc & Ec).
  destruct (is_cell_fixed b r c) as [f| |]; simpl in Ec; try discriminate.
  inversion Ec; subst. simpl.
  apply in_seq in Hr, Hc. lia.
Qed.

Lemma inside_shape9 {A : Type} (g : list (list A)) (r c : nat) :
  shape9 g -> (r < 9)%nat -> (c < 9)%nat -> inside g r c = true.
Proof.
  intros Hs Hr Hc. unfold inside.
  apply andb_true_iff; split; apply Nat.ltb_lt.
  - destruct Hs; lia.
  - rewrite shape9_row; auto.
Qed.

Lemma shape9_same_lengths (g g' : list (list Z)) :
  length g' = length g ->
  (forall r, length (nth r g' []) = length (nth r g [])) ->
  shape9 g -> shape9 g'.
Proof.
  intros Hl Hr Hs. pose proof Hs as [H9 _].
  split; [congruence|].
  apply Forall_forall. intros row Hin.
  destruct (In_nth g' row [] Hin) as (r & Hlt & <-).
  rewrite Hr. apply shape9_row; [exact Hs | lia].
Qed.

Lemma swap_values_back (b : Board) (c1 c2 : coord) :
  inside (grid b) (fst c1) (snd c1) = true ->
  inside (grid b) (fst c2) (snd c2) = true ->
  inside (fixed_cells b) (fst c1) (snd c1) = true ->
  inside (fixed_cells b) (fst c2) (snd c2) = true ->
  flag (fixed_cells b) c1 = flag (fixed_cells b) c2 ->
  swap_values c1 c2 (mkBoard (swapped b c1 c2) (fixed_cells b)) = (Ok tt, b).
Proof.
  intros G1 G2 F1 F2 Hf.
  rewrite swap_values_eq; simpl; rewrite ?swapped_inside; try assumption.
  replace b with (mkBoard (grid b) (fixed_cells b)) at 4 by now destruct b.
  f_equal. f_equal. apply grid_ext.
  - rewrite swapped_length. apply swapped_length.
  - intros r. rewrite swapped_row_length. apply swapped_row_length.
  - intros x. rewrite swapped_twice_cell by assumption.
    now rewrite Hf, Bool.eqb_reflx.
Qed.

Section Acceptance.

Variable Temp : Type.
Variable metropolis : nat -> Z -> Temp -> outcome bool.


End Acceptance.

Section Metropolis.

Variable math_exp : PrimFloat.float -> outcome PrimFloat.float.


End Metropolis.


(** ** The second algorithm is live *)

(** A round of the selector never asks for another round: it returns a
    pair, raises, or starves. *)
Lemma select_round_never_repeats (coords : list coord) (weights : list Z) :
  yields (fun o => o <> None) (select_round coords weights).
Proof.
  unfold select_round.
  apply (yields_bind (fun _ => True)); [apply yields_any|].
  intros [row1 col1] _.
  destruct (map _ (filter _ range9)).
  - apply (yields_bind (fun _ => True)); [apply yields_any|].
    intros p _. apply yields_ret. discriminate.
  - apply (yields_bind (fun _ => True)); [apply yields_any|].
    intros c _. apply yields_ret. discriminate.
Qed.

(** C3, where the code departs from it.  In the puzzle [lone_blank] the
    first row has a single blank; after the row fill its cell (0,0) has
    cost 2, the weighted draw 0 selects it, no other modifiable cell
    shares its row, and instead of drawing the first coordinate again
    the selector runs the second algorithm: the uniform draw 2 gives
    (1,1), in another row, and the pair ((0,0),(1,1)) is returned. *)
Theorem select_coordinates_leaves_row :
  let b := snd (initialise_board pop_smallest lone_blank) in
  let mc := [(0, 0); (1, 0); (1, 1); (1, 2); (1, 3);
             (1, 4); (1, 5); (1, 6); (1, 7); (1, 8)]%nat in
  let cc := map (fun rc => (rc, 2%Z)) mc in
  get_modifiable_coordinates b = Ok mc
  /\ coord_costs_of b mc = Ok cc
  /\ select_coordinates cc (mkWorld b [0; 2]%nat)
     = (Ok ((0, 0)%nat, (1, 1)%nat), mkWorld b []).
Proof.
  vm_compute. repeat split.
Qed.

(** ** The fuel of the loops is never what stops them *)

Lemma while_true_fuel {A : Type} (body : M World (option A)) :
  (forall w w', body w = (Ok None, w') ->
                (length (tape w') < length (tape w))%nat) ->
  forall (n k : nat) (w : World),
    (length (tape w) < n)%nat ->
    while_true (n + k) body w = while_true n body w.
Proof.
  intros Hc n. induction n as [|n IH]; intros k w Hn; [lia|].
  simpl. unfold bind.
  destruct (body w) as [[[a|]| |] w'] eqn:E; try reflexivity.
  apply IH. specialize (Hc w w' E). lia.
Qed.

Lemma random_choice_consumes (population : list coord) (w w' : World) (c : coord) :
  random_choice population w = (Ok c, w') ->
  (length (tape w') < length (tape w))%nat.
Proof.
  unfold random_choice. destruct population as [|p l]; [discriminate|].
  unfold bind, draw, read. destruct (tape w) as [|u t]; [discriminate|].
  destruct (item _ _); intros E; inversion E; subst; simpl; lia.
Qed.

(** The second algorithm draws once per round: with any amount of extra
    fuel it behaves as with the fuel it is given. *)
Lemma uniform_different_fuel (coords : list coord) (coord1 : coord)
      (k : nat) (w : World) :
  while_true (S (length (tape w)) + k)
    (coord2 <- random_choice coords ;;
     v2 <- on_board (read (fun b => get_value b (fst coord2) (snd coord2))) ;;
     v1 <- on_board (read (fun b => get_value b (fst coord1) (snd coord1))) ;;
     if negb (v2 =? v1)%Z then ret (Some (coord1, coord2)) else ret None) w
  = uniform_different coords coord1 w.
Proof.
  unfold uniform_different, forever. apply while_true_fuel; [|lia].
  clear. intros w w' E. unfold bind at 1 in E.
  destruct (random_choice coords w) as [[c2| |] w1] eqn:E1; try discriminate.
  apply random_choice_consumes in E1.
  unfold bind, on_board, read in E.
  destruct (get_value (board w1) (fst c2) (snd c2)); try discriminate.
  simpl in E.
  destruct (get_value (board w1) (fst coord1) (snd coord1)); try discriminate.
  simpl in E. destruct (negb _); inversion E; subst. exact E1.
Qed.

Section Budget.

Variable Temp : Type.
Variable Tmul : Temp -> Temp -> Temp.
Variable metropolis : nat -> Z -> Temp -> outcome bool.

Lemma iteration_counts (T_initial : Temp) (max_stagnation : Z) (decay : Temp)
      (mc : list coord) (st : annealing Temp) :
  yields (fun st' => iterations st' = (iterations st + 1)%Z)
         (iteration Tmul metropolis T_initial max_stagnation decay mc st).
Proof.
  unfold iteration.
  apply (yields_bind (fun _ => True)); [apply yields_any|]. intros cc _.
  apply (yields_bind (fun _ => True)); [apply yields_any|]. intros [c1 c2] _.
  apply (yields_bind (fun _ => True)); [apply yields_any|]. intros cost _.
  apply yields_ret. unfold cool.
  destruct (cost <? min_cost st)%Z;
    match goal with |- context [(?a >=? ?b)%Z] => destruct (a >=? b)%Z end;
    reflexivity.
Qed.

(** With a budget of [max_iterations - iterations] rounds the loop
    stops by its own condition: more budget changes nothing. *)
Lemma loop_budget (T_initial : Temp) (max_iterations max_stagnation : Z)
      (decay : Temp) (mc : list coord) :
  forall (n k : nat) (st : annealing Temp) (w : World),
    (max_iterations - iterations st <= Z.of_nat n)%Z ->
    loop Tmul metropolis (n + k) T_initial max_iterations max_stagnation decay mc st w
    = loop Tmul metropolis n T_initial max_iterations max_stagnation decay mc st w.
Proof.
  induction n as [|n IH]; intros k st w Hn.
  - assert (E : ((current_cost st >? 0)%Z
                 && (iterations st <? max_iterations)%Z) = false).
    { apply andb_false_iff. right. apply Z.ltb_ge. simpl in Hn. lia. }
    now rewrite !loop_solved by exact E.
  - simpl. destruct (_ && _); [|reflexivity].
    unfold bind.
    destruct (iteration Tmul metropolis T_initial max_stagnation decay mc st w)
      as [[st'| |] w'] eqn:E; try reflexivity.
    apply IH. apply iteration_counts in E. lia.
Qed.

End Budget.

(** * Further properties *)

(** ** Writing one cell *)

(** X1: a write to a modifiable cell in range is read back, leaves every
    other cell and the mask alone; a write outside the mask raises
    [IndexError] and leaves the board as it was. *)
Theorem set_value_then_get (b : Board) (row col : nat) (v old : Z) :
  (is_cell_fixed b row col = Ok false ->
   get_value b row col = Ok old ->
   exists b',
     set_value row col v b = (Ok tt, b')
     /\ fixed_cells b' = fixed_cells b
     /\ get_value b' row col = Ok v
     /\ forall r c, (r, c) <> (row, col) -> get_value b' r c = get_value b r c)
  /\ (inside (fixed_cells b) row col = false ->
      set_value row col v b = (Raise IndexError, b)).
Proof.
  split.
  - intros F G. apply is_cell_fixed_Ok in F as [FI FF].
    apply get_value_Ok in G as [GI _].
    exists (mkBoard (upd (grid b) row col v) (fixed_cells b)).
    rewrite set_value_eq, FI, FF, store_eq, GI.
    split; [reflexivity|]. split; [reflexivity|]. split.
    + rewrite get_value_eq; simpl. rewrite upd_inside, GI, upd_cell, GI.
      now rewrite coord_eqb_refl.
    + intros r c N. rewrite !get_value_eq; simpl.
      rewrite upd_inside, upd_cell.
      apply coord_eqb_neq in N. now rewrite N, andb_false_r.
  - intros FI. now rewrite set_value_eq, FI.
Qed.

Lemma set_value_then_get_witness :
  exists b',
    set_value 0 1 7%Z one_given = (Ok tt, b')
    /\ fixed_cells b' = fixed_cells one_given
    /\ get_value b' 0 1 = Ok 7%Z
    /\ forall r c, (r, c) <> (0, 1)%nat -> get_value b' r c = get_value one_given r c.
Proof.
  apply (proj1 (set_value_then_get one_given 0 1 7%Z 0%Z)); reflexivity.
Defined.

(** ** Invariants of every operation *)

Section StoreInvariant.

Variable P : Board -> Prop.
Hypothesis store_keeps_P : forall r c v, keeps P (store r c v).

Variable pop_choice : list Z -> nat.
Variable Temp : Type.
Variable Tmul : Temp -> Temp -> Temp.
Variable metropolis : nat -> Z -> Temp -> outcome bool.

Lemma set_value_inv (r c : nat) (v : Z) : keeps P (set_value r c v).
Proof.
  unfold set_value. apply keeps_bind; [apply keeps_read|].
  intros f. destruct (negb f); [apply store_keeps_P | apply keeps_ret].
Qed.

Lemma swap_values_inv (c1 c2 : coord) : keeps P (swap_values c1 c2).
Proof.
  unfold swap_values. destruct c1 as [r1 k1], c2 as [r2 k2].
  repeat first [apply set_value_inv | keeps_step].
Qed.

Lemma reset_inv : keeps P reset.
Proof.
  unfold reset. apply keeps_bind; [apply keeps_read|]. intros coords.
  apply keeps_for_each. intros rc _. apply store_keeps_P.
Qed.

Lemma fill_row_inv (row_idx : nat) (cols : list nat) (missing_numbers : list Z) :
  keeps P (fill_row pop_choice row_idx cols missing_numbers).
Proof.
  revert missing_numbers; induction cols as [|c cols IH]; intros ms; simpl.
  - apply keeps_ret.
  - apply keeps_bind; [apply keeps_read|]. intros v.
    destruct (v =? 0)%Z; [|apply IH].
    apply keeps_bind; [apply keeps_read|]. intros [x ms'].
    apply keeps_bind; [apply set_value_inv|]. intros _. apply IH.
Qed.

Lemma initialise_board_inv : keeps P (initialise_board pop_choice).
Proof.
  unfold initialise_board.
  apply keeps_bind; [apply keeps_read|]. intros n.
  apply keeps_for_each. intros r _.
  apply keeps_bind; [apply keeps_read|]. intros row_values.
  apply fill_row_inv.
Qed.

Lemma propose_inv (c1 c2 : coord) (st : annealing Temp) :
  keeps (fun w => P (board w)) (propose metropolis c1 c2 st).
Proof.
  unfold propose.
  repeat first [apply swap_values_inv | keeps_step].
Qed.

Lemma loop_inv (budget : nat) (T_initial : Temp)
      (max_iterations max_stagnation : Z) (decay : Temp) (mc : list coord)
      (st : annealing Temp) :
  keeps (fun w => P (board w))
        (loop Tmul metropolis budget T_initial max_iterations max_stagnation
              decay mc st).
Proof.
  revert st; induction budget as [|n IH]; intros st; simpl;
    destruct ((current_cost st >? 0)%Z && (iterations st <? max_iterations)%Z);
    try apply keeps_ret.
  - intros w H. exact H.
  - apply keeps_bind; [|intros st'; apply IH].
    unfold iteration.
    apply keeps_bind; [apply keeps_on_board, keeps_read|]. intros cc.
    apply keeps_bind; [apply select_coordinates_keeps|]. intros [c1 c2].
    apply keeps_bind; [apply propose_inv|]. intros cost. apply keeps_ret.
Qed.

Lemma solver_inv (T0 : Temp) (max_iterations max_stagnation : Z) (decay : Temp) :
  keeps (fun w => P (board w))
        (solver pop_choice Tmul metropolis T0 max_iterations max_stagnation decay).
Proof.
  unfold solver, anneal.
  apply keeps_bind; [|intros st; apply keeps_ret].
  apply keeps_bind; [apply keeps_on_board, initialise_board_inv|]. intros _.
  apply keeps_bind; [apply keeps_on_board, keeps_read|]. intros cost.
  apply keeps_bind; [apply keeps_on_board, keeps_read|]. intros mc.
  apply loop_inv.
Qed.

Lemma perform_all_inv (cs : list (call Temp)) (w : World) :
  P (board w) -> P (board (perform_all pop_choice Tmul metropolis cs w)).
Proof.
  revert w; induction cs as [|c cs IH]; intros w H; simpl; [exact H|].
  apply IH. destruct c; simpl.
  - now apply (keeps_on_board P (set_value row col value) (set_value_inv _ _ _)).
  - now apply (keeps_on_board P (swap_values coord1 coord2) (swap_values_inv _ _)).
  - now apply (keeps_on_board P reset reset_inv).
  - now apply (keeps_on_board P _ initialise_board_inv).
  - apply (keeps_bind (fun w => P (board w))); [apply solver_inv | | exact H].
    intros _. apply keeps_ret.
Qed.

End StoreInvariant.

Lemma store_same_shape (b0 : Board) (r c : nat) (v : Z) :
  keeps (same_shape b0) (store r c v).
Proof.
  intros b (Hm & Hl & Hr). rewrite store_eq.
  destruct (inside (grid b) r c); simpl; [|now repeat split].
  repeat split; simpl; auto.
  - now rewrite upd_length.
  - intros r'. now rewrite upd_row_length.
Qed.

Lemma same_shape_refl (b : Board) : same_shape b b.
Proof. repeat split. Qed.

Lemma same_shape_well_formed (b0 b : Board) :
  same_shape b0 b -> well_formed b0 -> well_formed b.
Proof.
  intros (Hm & Hl & Hr) [Hg Hf]. split.
  - now apply (shape9_same_lengths (grid b0)).
  - now rewrite Hm.
Qed.

(** ** The modifiable coordinates *)

Lemma distinct_coords_NoDup (l : list coord) :
  distinct_coords l = true -> NoDup l.
Proof.
  induction l as [|x l IH]; simpl; intros H; [constructor|].
  apply andb_true_iff in H as [Hx Hl]. constructor; [|now apply IH].
  intros Hin. apply negb_true_iff in Hx.
  assert (E : existsb (coord_eqb x) l = true).
  { apply existsb_exists. exists x. split; [exact Hin | apply coord_eqb_refl]. }
  congruence.
Qed.

Lemma all_coords_In (rc : coord) :
  In rc all_coords <-> (fst rc < 9)%nat /\ (snd rc < 9)%nat.
Proof.
  unfold all_coords, range9. rewrite in_flat_map. split.
  - intros (r & Hr & Hin). apply in_map_iff in Hin as (c & <- & Hc).
    apply in_seq in Hr, Hc. simpl. lia.
  - intros [Hr Hc]. exists (fst rc). split; [apply in_seq; lia|].
    apply in_map_iff. exists (snd rc). split; [now destruct rc | apply in_seq; lia].
Qed.

Lemma all_coords_NoDup : NoDup all_coords.
Proof. apply distinct_coords_NoDup. reflexivity. Qed.

Lemma filter_flat_map {A B : Type} (p : B -> bool) (f : A -> list B) (l : list A) :
  filter p (flat_map f l) = flat_map (fun x => filter p (f x)) l.
Proof.
  induction l as [|x l IH]; simpl; [reflexivity|].
  now rewrite filter_app, IH.
Qed.

Lemma kept_coords (r : nat) (p : coord -> bool) (l : list nat) :
  map snd (filter fst (map (fun c => (p (r, c), (r, c))) l))
  = filter p (map (pair r) l).
Proof.
  induction l as [|c l IH]; simpl; [reflexivity|].
  destruct (p (r, c)); simpl; now rewrite IH.
Qed.

Lemma get_modifiable_coordinates_exact (b : Board) :
  shape9 (fixed_cells b) ->
  get_modifiable_coordinates b
  = Ok (filter (fun rc => negb (flag (fixed_cells b) rc)) all_coords).
Proof.
  intros Hs. unfold get_modifiable_coordinates.
  set (p := fun rc : coord => negb (flag (fixed_cells b) rc)).
  rewrite (omap_Ok _ (fun r => filter p (map (pair r) range9))).
  - unfold obind. rewrite <- flat_map_concat_map. unfold all_coords.
    now rewrite filter_flat_map.
  - intros r Hr. apply in_seq in Hr.
    rewrite (omap_Ok _ (fun c => (p (r, c), (r, c)))).
    + unfold obind. now rewrite kept_coords.
    + intros c Hc. apply in_seq in Hc.
      rewrite is_cell_fixed_eq, inside_shape9 by (auto; lia). reflexivity.
Qed.

Lemma omap_Raise {A B : Type} (f : A -> outcome B) (l : list A) (e : exn) :
  (forall x, In x l -> (exists y, f x = Ok y) \/ f x = Raise e) ->
  (exists x, In x l /\ f x = Raise e) ->
  omap f l = Raise e.
Proof.
  induction l as [|x l IH]; intros Hall (x0 & Hin & Ex0); [contradiction|].
  simpl. destruct (Hall x (or_introl eq_refl)) as [(y & Ey)|Ey].
  - rewrite Ey. simpl. rewrite IH; [reflexivity| |].
    + intros z Hz. apply Hall. now right.
    + destruct Hin as [<-|Hin]; [congruence|]. exists x0. auto.
  - now rewrite Ey.
Qed.

Lemma omap_outcome {A B : Type} (f : A -> outcome B) (l : list A) (e : exn) :
  (forall x, In x l -> (exists y, f x = Ok y) \/ f x = Raise e) ->
  (exists ys, omap f l = Ok ys) \/ omap f l = Raise e.
Proof.
  induction l as [|x l IH]; intros Hall; simpl; [eauto|].
  destruct (Hall x (or_introl eq_refl)) as [(y & Ey)|Ey]; rewrite Ey; simpl; auto.
  destruct IH as [(ys & E)|E]; [intros z Hz; apply Hall; now right | |];
    rewrite E; simpl; eauto.
Qed.

(** X2: on a board with a 9x9 mask the modifiable coordinates are exactly
    the coordinates of the grid whose mask entry is false, each once,
    row by row; with a mask that lacks one of the 81 entries the call
    raises [IndexError]. *)
Theorem get_modifiable_coordinates_spec (b : Board) :
  (shape9 (fixed_cells b) ->
   exists l,
     get_modifiable_coordinates b = Ok l
     /\ l = filter (fun rc => negb (flag (fixed_cells b) rc)) all_coords
     /\ NoDup l
     /\ forall rc, In rc l <->
                   (fst rc < 9)%nat /\ (snd rc < 9)%nat
                   /\ is_cell_fixed b (fst rc) (snd rc) = Ok false)
  /\ ((exists r c, (r < 9)%nat /\ (c < 9)%nat /\ inside (fixed_cells b) r c = false) ->
      get_modifiable_coordinates b = Raise IndexError).
Proof.
  split.
  - intros Hs. eexists. split; [now apply get_modifiable_coordinates_exact|].
    split; [reflexivity|]. split; [apply NoDup_filter, all_coords_NoDup|].
    intros rc. rewrite filter_In, all_coords_In, negb_true_iff. split.
    + intros [[Hr Hc] Hf]. repeat split; auto.
      apply is_cell_fixed_Ok. split; [now apply inside_shape9|].
      now destruct rc.
    + intros (Hr & Hc & Hf). apply is_cell_fixed_Ok in Hf as [_ Hf].
      split; [auto|]. now destruct rc.
  - intros (r & c & Hr & Hc & Hout). unfold get_modifiable_coordinates.
    assert (Hcell : forall r' c',
               (exists y, (let? f := is_cell_fixed b r' c' in Ok (negb f, (r', c'))) = Ok y)
               \/ (let? f := is_cell_fixed b r' c' in Ok (negb f, (r', c')))
                  = Raise IndexError).
    { intros r' c'. rewrite is_cell_fixed_eq.
      destruct (inside (fixed_cells b) r' c'); simpl; eauto. }
    assert (Hrow : forall r',
               (exists y, (let? keep := omap (fun c' =>
                              let? f := is_cell_fixed b r' c' in
                              Ok (negb f, (r', c'))) range9 in
                           Ok (map snd (filter fst keep))) = Ok y)
               \/ (let? keep := omap (fun c' =>
                              let? f := is_cell_fixed b r' c' in
                              Ok (negb f, (r', c'))) range9 in
                   Ok (map snd (filter fst keep))) = Raise IndexError).
    { intros r'.
      destruct (omap_outcome (fun c' => let? f := is_cell_fixed b r' c' in
                                        Ok (negb f, (r', c'))) range9 IndexError)
        as [(ys & E)|E]; [intros c' _; apply Hcell | |]; rewrite E; simpl; eauto. }
    rewrite (omap_Raise _ range9 IndexError); [reflexivity| |].
    + intros r' _. apply Hrow.
    + exists r. split; [apply in_seq; lia|].
      rewrite (omap_Raise _ range9 IndexError); [reflexivity| |].
      * intros c' _. apply Hcell.
      * exists c. split; [apply in_seq; lia|].
        now rewrite is_cell_fixed_eq, Hout.
Qed.

Lemma get_modifiable_coordinates_spec_witness :
  exists l,
    get_modifiable_coordinates one_blank = Ok l
    /\ l = filter (fun rc => negb (flag (fixed_cells one_blank) rc)) all_coords
    /\ NoDup l
    /\ forall rc, In rc l <->
                  (fst rc < 9)%nat /\ (snd rc < 9)%nat
                  /\ is_cell_fixed one_blank (fst rc) (snd rc) = Ok false.
Proof.
  apply (proj1 (get_modifiable_coordinates_spec one_blank)).
  split; [reflexivity | repeat constructor].
Defined.

(** ** Reset *)

Lemma zero_cells (l : list coord) :
  forall b : Board,
    (forall rc, In rc l -> inside (grid b) (fst rc) (snd rc) = true) ->
    exists g',
      for_each l (fun rc => store (fst rc) (snd rc) 0%Z) b
      = (Ok tt, mkBoard g' (fixed_cells b))
      /\ length g' = length (grid b)
      /\ (forall r, length (nth r g' []) = length (nth r (grid b) []))
      /\ forall x, cell g' x
                   = if existsb (coord_eqb x) l then 0%Z else cell (grid b) x.
Proof.
  induction l as [|rc l IH]; intros b Hin.
  - exists (grid b). simpl. unfold ret. destruct b; auto.
  - simpl. unfold bind. rewrite store_eq, (Hin rc (or_introl eq_refl)).
    set (b1 := mkBoard (upd (grid b) (fst rc) (snd rc) 0%Z) (fixed_cells b)).
    destruct (IH b1) as (g' & E & Hl & Hr & Hc).
    + intros x Hx. unfold b1; simpl. rewrite upd_inside. apply Hin. now right.
    + exists g'. rewrite E. unfold b1 in *; simpl in *.
      split; [reflexivity|]. split; [now rewrite Hl, upd_length|].
      split; [intros r; now rewrite Hr, upd_row_length|].
      intros x. rewrite Hc, upd_cell, (Hin rc (or_introl eq_refl)).
      replace (fst rc, snd rc) with rc by now destruct rc.
      destruct (coord_eqb x rc), (existsb (coord_eqb x) l); reflexivity.
Qed.

Lemma existsb_coord (x : coord) (l : list coord) :
  existsb (coord_eqb x) l = true <-> In x l.
Proof.
  rewrite existsb_exists. split.
  - intros (y & Hy & E). apply coord_eqb_eq in E. now subst.
  - intros H. exists x. split; [exact H | apply coord_eqb_refl].
Qed.

Lemma reset_grid (b : Board) :
  well_formed b ->
  exists g',
    reset b = (Ok tt, mkBoard g' (fixed_cells b))
    /\ length g' = length (grid b)
    /\ (forall r, length (nth r g' []) = length (nth r (grid b) []))
    /\ forall x, cell g' x
                 = if existsb (coord_eqb x)
                        (filter (fun rc => negb (flag (fixed_cells b) rc)) all_coords)
                   then 0%Z else cell (grid b) x.
Proof.
  intros [Hg Hm]. unfold reset, bind, read.
  rewrite (get_modifiable_coordinates_exact b Hm).
  apply zero_cells. intros rc Hin.
  apply filter_In in Hin as [Hin _]. apply all_coords_In in Hin as [Hr Hc].
  now apply inside_shape9.
Qed.

(** X3: on a 9x9 board [reset] returns, keeps the mask, and leaves a 9x9
    grid in which every modifiable cell holds 0 and every fixed cell
    holds what it held. *)
Theorem reset_blanks_modifiable_cells (b : Board) :
  well_formed b ->
  exists b',
    reset b = (Ok tt, b')
    /\ fixed_cells b' = fixed_cells b
    /\ well_formed b'
    /\ forall row col,
        (is_cell_fixed b row col = Ok false -> get_value b' row col = Ok 0%Z)
        /\ (is_cell_fixed b row col = Ok true ->
            get_value b' row col = get_value b row col).
Proof.
  intros Hwf. destruct (reset_grid b Hwf) as (g' & E & Hl & Hr & Hc).
  exists (mkBoard g' (fixed_cells b)). split; [exact E|]. split; [reflexivity|].
  pose proof Hwf as [Hg Hm].
  assert (Hg' : shape9 g') by now apply (shape9_same_lengths (grid b)).
  split; [split; assumption|].
  assert (Hin : forall r c, inside g' r c = inside (grid b) r c)
    by (intros r c; unfold inside; now rewrite Hl, Hr).
  intros row col. split; intros F; apply is_cell_fixed_Ok in F as [FI FF].
  - assert (R : (row < 9)%nat /\ (col < 9)%nat).
    { unfold inside in FI. apply andb_true_iff in FI as [F1 F2].
      apply Nat.ltb_lt in F1, F2. destruct Hm as [H9 _].
      rewrite shape9_row in F2 by (try split; auto; destruct Hwf as [_ [? ?]]; auto; lia).
      lia. }
    rewrite get_value_eq; simpl.
    rewrite Hin, inside_shape9 by (auto; lia). rewrite Hc.
    assert (X : existsb (coord_eqb (row, col))
                  (filter (fun rc => negb (flag (fixed_cells b) rc)) all_coords)
                = true).
    { apply existsb_coord, filter_In. split; [now apply all_coords_In|].
      now rewrite FF. }
    now rewrite X.
  - rewrite !get_value_eq; simpl. rewrite Hin, Hc.
    assert (X : existsb (coord_eqb (row, col))
                  (filter (fun rc => negb (flag (fixed_cells b) rc)) all_coords)
                = false).
    { destruct (existsb _ _) eqn:X; [|reflexivity].
      apply existsb_coord, filter_In in X as [_ X]. rewrite FF in X. discriminate. }
    now rewrite X.
Qed.

Lemma reset_blanks_modifiable_cells_witness :
  exists b',
    reset scratch_board = (Ok tt, b')
    /\ fixed_cells b' = fixed_cells scratch_board
    /\ well_formed b'
    /\ forall row col,
        (is_cell_fixed scratch_board row col = Ok false ->
         get_value b' row col = Ok 0%Z)
        /\ (is_cell_fixed scratch_board row col = Ok true ->
            get_value b' row col = get_value scratch_board row col).
Proof.
  apply (reset_blanks_modifiable_cells scratch_board).
  split; split; try reflexivity; repeat constructor.
Defined.

Lemma cell_outside (g : list (list Z)) (r c : nat) :
  inside g r c = false -> cell g (r, c) = 0%Z.
Proof.
  unfold inside, cell; simpl. intros H.
  apply andb_false_iff in H as [H|H]; apply Nat.ltb_ge in H.
  - rewrite (nth_overflow g [] H). now destruct c.
  - now apply nth_overflow.
Qed.

Lemma Board_init_fresh (g : list (list Z)) :
  g <> [] -> Board_init (Some g) = mkBoard g (map (map truthy) g).
Proof. destruct g; [congruence | reflexivity]. Qed.

Lemma shape9_nonempty {A : Type} (g : list (list A)) : shape9 g -> g <> [].
Proof. intros [H _] ->. discriminate. Qed.

Lemma shape9_map {A B : Type} (f : A -> B) (g : list (list A)) :
  shape9 g -> shape9 (map (map f) g).
Proof.
  intros [Hl Hr]. split; [now rewrite length_map|].
  apply Forall_map. rewrite Forall_forall in *. intros row Hin.
  rewrite length_map. now apply Hr.
Qed.

Lemma fresh_well_formed (g : list (list Z)) :
  shape9 g -> well_formed (Board_init (Some g)).
Proof.
  intros Hs. rewrite Board_init_fresh by now apply shape9_nonempty.
  split; simpl; [exact Hs | now apply shape9_map].
Qed.

Section AfterCalls.

Variable pop_choice : list Z -> nat.
Variable Temp : Type.
Variable Tmul : Temp -> Temp -> Temp.
Variable metropolis : nat -> Z -> Temp -> outcome bool.

Lemma perform_all_protects (cs : list (call Temp)) (w : World) :
  protects (board w) (board (perform_all pop_choice Tmul metropolis cs w)).
Proof.
  generalize (protects_refl (board w)).
  generalize w at 2 4. induction cs as [|c cs IH]; intros w1 H1; simpl.
  - exact H1.
  - apply IH. apply (perform_keeps pop_choice Temp Tmul metropolis (board w) c w1 H1).
Qed.

Lemma perform_all_same_shape (cs : list (call Temp)) (w : World) :
  same_shape (board w) (board (perform_all pop_choice Tmul metropolis cs w)).
Proof.
  apply (perform_all_inv (same_shape (board w)) (store_same_shape (board w))).
  apply same_shape_refl.
Qed.

(** X4: whatever calls were made on a board built from a 9x9 grid, and
    however they ended, [reset] returns and gives back exactly the board
    as it was built: the givens in place and every other cell blank. *)
Theorem reset_restores_puzzle (g : list (list Z)) (cs : list (call Temp))
        (draws : list nat) :
  shape9 g ->
  reset (board (perform_all pop_choice Tmul metropolis cs
                            (mkWorld (Board_init (Some g)) draws)))
  = (Ok tt, Board_init (Some g)).
Proof.
  intros Hs. rewrite (Board_init_fresh g (shape9_nonempty g Hs)).
  set (b0 := mkBoard g (map (map truthy) g)).
  assert (Hwf0 : well_formed b0) by (split; [exact Hs | now apply shape9_map]).
  pose proof (perform_all_same_shape cs (mkWorld b0 draws)) as (Hm & Hl0 & Hr0).
  pose proof (perform_all_protects cs (mkWorld b0 draws)) as [_ Hv].
  change (board (mkWorld b0 draws)) with b0 in Hm, Hl0, Hr0, Hv.
  set (b := board (perform_all pop_choice Tmul metropolis cs (mkWorld b0 draws)))
    in *.
  assert (Hwf : well_formed b).
  { apply (same_shape_well_formed b0 b); [|exact Hwf0]. repeat split; assumption. }
  destruct (reset_grid b Hwf) as (g' & E & Hl & Hr & Hc).
  rewrite E, Hm.
  assert (Eg : g' = g).
  { apply grid_ext; [exact (eq_trans Hl Hl0) | intros r; now rewrite Hr, Hr0 |].
    intros [r c]. rewrite Hc, Hm.
    destruct (existsb (coord_eqb (r, c))
                (filter (fun rc => negb (flag (fixed_cells b0) rc)) all_coords))
      eqn:X.
    - apply existsb_coord, filter_In in X as [Hin Hf].
      apply all_coords_In in Hin as [R C]. cbn [fst snd] in R, C.
      apply negb_true_iff in Hf.
      change (fixed_cells b0) with (map (map truthy) g) in Hf.
      rewrite flag_truthy in Hf by (apply inside_shape9; assumption).
      unfold truthy in Hf. apply negb_false_iff, Z.eqb_eq in Hf.
      rewrite Hf. reflexivity.
    - destruct (inside g r c) eqn:I.
      + assert (R : (r < 9)%nat /\ (c < 9)%nat).
        { unfold inside in I. apply andb_true_iff in I as [I1 I2].
          apply Nat.ltb_lt in I1, I2. destruct Hs as [H9 Hrows].
          rewrite shape9_row in I2 by (try split; auto; lia). lia. }
        destruct R as [R C].
        assert (F : flag (fixed_cells b0) (r, c) = true).
        { destruct (flag (fixed_cells b0) (r, c)) eqn:F; [reflexivity|].
          assert (X' : existsb (coord_eqb (r, c))
                         (filter (fun rc => negb (flag (fixed_cells b0) rc)) all_coords)
                       = true).
          { apply existsb_coord, filter_In. split.
            - apply all_coords_In. split; assumption.
            - rewrite F. reflexivity. }
          rewrite X' in X. discriminate X. }
        assert (Fx : is_cell_fixed b0 r c = Ok true).
        { apply is_cell_fixed_Ok. split; [|exact F].
          apply inside_shape9; [apply Hwf0 | exact R | exact C]. }
        specialize (Hv r c Fx). rewrite !get_value_eq in Hv.
        change (grid b0) with g in Hv, Hl0, Hr0. rewrite I in Hv.
        assert (I' : inside (grid b) r c = true)
          by (unfold inside in *; now rewrite Hl0, Hr0).
        rewrite I' in Hv. injection Hv as Hv'. exact Hv'.
      + rewrite (cell_outside g r c I).
        apply cell_outside. change (grid b0) with g in Hl0, Hr0.
        unfold inside. rewrite Hl0, Hr0. exact I. }
  rewrite Eg. reflexivity.
Qed.

End AfterCalls.

Lemma reset_restores_puzzle_witness :
  reset (board (perform_all pop_smallest no_temp refuse
                  [CallInitialiseBoard unit; CallSetValue unit 0 0 4%Z;
                   CallSolver tt 3 1500 tt]
                  (mkWorld (Board_init (Some lone_blank_grid)) [0; 2; 5]%nat)))
  = (Ok tt, Board_init (Some lone_blank_grid)).
Proof.
  apply (reset_restores_puzzle pop_smallest unit no_temp refuse lone_blank_grid).
  split; [reflexivity | repeat constructor].
Defined.

(** ** The boxes *)

Lemma next_box_in_range (r c : nat) :
  (r < 9)%nat -> (c < 9)%nat ->
  next_box (r, c) = Ok (nth (box_index (r, c)) get_box_coordinates [])
  /\ In (r, c) (nth (box_index (r, c)) get_box_coordinates [])
  /\ (box_index (r, c) < 9)%nat.
Proof.
  intros Hr Hc.
  do 9 (destruct r as [|r];
        [do 9 (destruct c as [|c];
               [split; [reflexivity|];
                split; [apply existsb_coord; reflexivity | vm_compute; lia]|]);
         lia|]).
  lia.
Qed.

Lemma box_unique (box : list coord) (rc : coord) :
  In box get_box_coordinates -> In rc box ->
  box = nth (box_index rc) get_box_coordinates [].
Proof.
  intros Hbox Hin. simpl in Hbox.
  repeat (destruct Hbox as [<-|Hbox];
          [simpl in Hin;
           repeat (destruct Hin as [<-|Hin]; [reflexivity|]); contradiction|]).
  contradiction.
Qed.

Lemma find_none {A : Type} (f : A -> bool) (l : list A) :
  (forall x, In x l -> f x = false) -> find f l = None.
Proof.
  induction l as [|x l IH]; intros H; simpl; [reflexivity|].
  rewrite (H x (or_introl eq_refl)). apply IH. intros y Hy. apply H. now right.
Qed.

(** X5: the nine boxes of [get_box_coordinates] partition the grid: no
    coordinate occurs twice in them, the coordinates that occur are
    those with both indices below 9, and the box of (r, c) is the one at
    position 3 * (r / 3) + c / 3; looking up the box of a coordinate
    outside the grid raises [StopIteration]. *)
Theorem boxes_partition_grid :
  length get_box_coordinates = 9%nat
  /\ NoDup (concat get_box_coordinates)
  /\ (forall rc, In rc (concat get_box_coordinates)
                 <-> (fst rc < 9)%nat /\ (snd rc < 9)%nat)
  /\ (forall r c, (r < 9)%nat -> (c < 9)%nat ->
                  next_box (r, c)
                  = Ok (nth (3 * (r / 3) + c / 3) get_box_coordinates [])
                  /\ In (r, c) (nth (3 * (r / 3) + c / 3) get_box_coordinates [])
                  /\ forall box, In box get_box_coordinates -> In (r, c) box ->
                                 box = nth (3 * (r / 3) + c / 3) get_box_coordinates [])
  /\ (forall r c, (9 <= r)%nat \/ (9 <= c)%nat ->
                  next_box (r, c) = Raise StopIteration).
Proof.
  split; [reflexivity|]. split; [apply distinct_coords_NoDup; reflexivity|].
  split; [|split].
  - intros rc. split.
    + intros Hin. apply in_concat in Hin as (box & Hbox & Hin).
      now apply (box_coordinates_in_range box rc).
    + intros [Hr Hc]. destruct rc as [r c]. simpl in Hr, Hc.
      destruct (next_box_in_range r c Hr Hc) as (_ & Hin & Hk).
      apply in_concat. eexists. split; [|exact Hin].
      apply nth_In. change (length get_box_coordinates) with 9%nat. exact Hk.
  - intros r c Hr Hc. destruct (next_box_in_range r c Hr Hc) as (E & Hin & _).
    split; [exact E|]. split; [exact Hin|].
    intros box Hbox Hrc. apply (box_unique box (r, c) Hbox Hrc).
  - intros r c Hout. unfold next_box. rewrite find_none; [reflexivity|].
    intros box Hbox. destruct (existsb _ box) eqn:E; [|reflexivity].
    apply existsb_coord in E.
    destruct (box_coordinates_in_range box (r, c) Hbox E). simpl in *. lia.
Qed.

Lemma boxes_partition_grid_witness :
  next_box (4, 7)%nat = Ok (nth 5 get_box_coordinates [])
  /\ next_box (9, 0)%nat = Raise StopIteration.
Proof.
  destruct boxes_partition_grid as (_ & _ & _ & Hin & Hout).
  split.
  - apply (Hin 4%nat 7%nat); lia.
  - apply (Hout 9%nat 0%nat). left. lia.
Defined.

(** ** The cost of a coordinate *)

Lemma zip_star_length (g : list (list Z)) :
  shape9 g -> length (zip_star g) = 9%nat.
Proof.
  intros Hs. rewrite (zip_star_shape9 g Hs). now rewrite length_map, length_seq.
Qed.

Lemma zip_star_nth (g : list (list Z)) (c : nat) :
  shape9 g -> (c < 9)%nat ->
  nth c (zip_star g) [] = map (fun row => nth c row 0%Z) g.
Proof.
  intros Hs Hc. rewrite (zip_star_shape9 g Hs).
  rewrite (nth_indep _ [] (map (fun row => nth 0 row 0%Z) g))
    by (now rewrite length_map, length_seq).
  rewrite (map_nth (fun j => map (fun row => nth j row 0%Z) g) (seq 0 9) 0%nat c).
  now rewrite seq_nth.
Qed.

Lemma coordinate_cost_eq (b : Board) (r c : nat) :
  shape9 (grid b) -> (r < 9)%nat -> (c < 9)%nat ->
  coordinate_cost b r c
  = Ok (let v := cell (grid b) (r, c) in
        if (v =? 0)%Z then 1%Z
        else (count (row_group b (r, c)) v - 1
              + (count (col_group b (r, c)) v - 1)
              + (count (box_group b (r, c)) v - 1))%Z).
Proof.
  intros Hs Hr Hc. unfold coordinate_cost.
  rewrite (get_value_cell b r c Hs Hr Hc). unfold obind at 1.
  cbv zeta. destruct (cell (grid b) (r, c) =? 0)%Z; [reflexivity|].
  rewrite (item_nth (get_rows b) r []) by (unfold get_rows; destruct Hs; lia).
  unfold obind at 1.
  rewrite (item_nth (get_columns b) c [])
    by (unfold get_columns; rewrite zip_star_length; auto).
  unfold obind at 1.
  destruct (next_box_in_range r c Hr Hc) as (E & Hin & Hk). rewrite E.
  unfold obind at 1.
  rewrite (omap_Ok _ (cell (grid b))).
  - reflexivity.
  - intros rc Hrc.
    assert (Hbox : In (nth (box_index (r, c)) get_box_coordinates [])
                      get_box_coordinates)
      by (apply nth_In; exact Hk).
    destruct (box_coordinates_in_range _ rc Hbox Hrc).
    destruct rc. now apply get_value_cell.
Qed.

Lemma value_in_groups (b : Board) (r c : nat) :
  shape9 (grid b) -> (r < 9)%nat -> (c < 9)%nat ->
  In (cell (grid b) (r, c)) (row_group b (r, c))
  /\ In (cell (grid b) (r, c)) (col_group b (r, c))
  /\ In (cell (grid b) (r, c)) (box_group b (r, c)).
Proof.
  intros Hs Hr Hc. unfold row_group, col_group, box_group, get_rows,
    get_columns; simpl fst; simpl snd.
  destruct (cell_in_row (grid b) r c Hs Hr Hc) as [Hrow Hin].
  split; [exact Hin|]. split.
  - rewrite zip_star_nth by assumption.
    apply in_map_iff. exists (nth r (grid b) []). split; [reflexivity | exact Hrow].
  - apply in_map. now destruct (next_box_in_range r c Hr Hc) as (_ & H & _).
Qed.

Lemma groups_in_groups_of (b : Board) (r c : nat) :
  shape9 (grid b) -> (r < 9)%nat -> (c < 9)%nat ->
  In (row_group b (r, c)) (groups_of b)
  /\ In (col_group b (r, c)) (groups_of b)
  /\ In (box_group b (r, c)) (groups_of b).
Proof.
  intros Hs Hr Hc. unfold groups_of, row_group, col_group, box_group.
  simpl fst; simpl snd. repeat split; apply in_app_iff.
  - left. apply nth_In. unfold get_rows. destruct Hs; lia.
  - right. apply in_app_iff. left. apply nth_In.
    unfold get_columns. now rewrite zip_star_length.
  - right. apply in_app_iff. right. apply in_map, nth_In.
    now destruct (next_box_in_range r c Hr Hc) as (_ & _ & H).
Qed.

(** X6: on a 9x9 grid the cost of a coordinate in range is defined and
    not negative; it is 1 on a blank, and 0 exactly when the value is
    not blank and occurs once in its row, once in its column and once
    in its box. *)
Theorem coordinate_cost_range (b : Board) (row col : nat) :
  shape9 (grid b) -> (row < 9)%nat -> (col < 9)%nat ->
  exists v k,
    get_value b row col = Ok v
    /\ coordinate_cost b row col = Ok k
    /\ (0 <= k)%Z
    /\ (v = 0%Z -> k = 1%Z)
    /\ (k = 0%Z <->
        v <> 0%Z
        /\ count (row_group b (row, col)) v = 1%Z
        /\ count (col_group b (row, col)) v = 1%Z
        /\ count (box_group b (row, col)) v = 1%Z).
Proof.
  intros Hs Hr Hc.
  destruct (value_in_groups b row col Hs Hr Hc) as (H1 & H2 & H3).
  apply count_pos in H1, H2, H3.
  eexists. eexists. split; [now apply get_value_cell|].
  split; [now apply coordinate_cost_eq|]. cbv zeta.
  destruct (cell (grid b) (row, col) =? 0)%Z eqn:E.
  - apply Z.eqb_eq in E. repeat split; try lia.
  - apply Z.eqb_neq in E. repeat split; try lia.
Qed.

Lemma coordinate_cost_range_witness :
  exists v k,
    get_value one_blank 0 0 = Ok v
    /\ coordinate_cost one_blank 0 0 = Ok k
    /\ (0 <= k)%Z
    /\ (v = 0%Z -> k = 1%Z)
    /\ (k = 0%Z <->
        v <> 0%Z
        /\ count (row_group one_blank (0, 0)%nat) v = 1%Z
        /\ count (col_group one_blank (0, 0)%nat) v = 1%Z
        /\ count (box_group one_blank (0, 0)%nat) v = 1%Z).
Proof.
  apply (coordinate_cost_range one_blank 0 0); try lia.
  split; [reflexivity | repeat constructor].
Defined.

Lemma cost_zero_groups (b : Board) :
  shape9 (grid b) ->
  cost_function b = Ok 0%Z
  <-> forall g, In g (groups_of b) -> NoDup g /\ ~ In 0%Z g.
Proof.
  intros Hs. rewrite (cost_function_groups b Hs).
  assert (Hn : forall x, In x (map group_cost (groups_of b)) -> (0 <= x)%Z).
  { intros x Hx. apply in_map_iff in Hx as (g & <- & _). apply group_cost_nonneg. }
  split.
  - intros E g Hg. apply group_cost_zero_iff.
    assert (E' : sum (map group_cost (groups_of b)) = 0%Z) by congruence.
    apply (proj1 (sum_zero_iff _ Hn) E'). now apply in_map.
  - intros H. f_equal. apply (sum_zero_iff _ Hn).
    intros x Hx. apply in_map_iff in Hx as (g & <- & Hg).
    apply group_cost_zero_iff, H, Hg.
Qed.

(** X7: on a 9x9 board the total cost is 0 exactly when the cost of every
    coordinate is 0. *)
Theorem total_cost_zero_iff_coordinate_costs_zero (b : Board) :
  shape9 (grid b) ->
  cost_function b = Ok 0%Z
  <-> forall row col, (row < 9)%nat -> (col < 9)%nat ->
                      coordinate_cost b row col = Ok 0%Z.
Proof.
  intros Hs. rewrite (cost_zero_groups b Hs). split.
  - intros H r c Hr Hc. rewrite (coordinate_cost_eq b r c Hs Hr Hc). cbv zeta.
    destruct (value_in_groups b r c Hs Hr Hc) as (V1 & V2 & V3).
    destruct (groups_in_groups_of b r c Hs Hr Hc) as (G1 & G2 & G3).
    destruct (H _ G1) as [N1 Z1]. destruct (H _ G2) as [N2 _].
    destruct (H _ G3) as [N3 _].
    destruct (cell (grid b) (r, c) =? 0)%Z eqn:E.
    + apply Z.eqb_eq in E. rewrite E in V1. contradiction.
    + pose proof (proj1 (NoDup_count_occ' Z.eq_dec _) N1 _ V1).
      pose proof (proj1 (NoDup_count_occ' Z.eq_dec _) N2 _ V2).
      pose proof (proj1 (NoDup_count_occ' Z.eq_dec _) N3 _ V3).
      unfold count. f_equal. lia.
  - intros H.
    assert (K : forall r c, (r < 9)%nat -> (c < 9)%nat ->
                  cell (grid b) (r, c) <> 0%Z
                  /\ count (row_group b (r, c)) (cell (grid b) (r, c)) = 1%Z
                  /\ count (col_group b (r, c)) (cell (grid b) (r, c)) = 1%Z
                  /\ count (box_group b (r, c)) (cell (grid b) (r, c)) = 1%Z).
    { intros r c Hr Hc. specialize (H r c Hr Hc).
      rewrite (coordinate_cost_eq b r c Hs Hr Hc) in H. cbv zeta in H.
      destruct (value_in_groups b r c Hs Hr Hc) as (V1 & V2 & V3).
      apply count_pos in V1, V2, V3.
      destruct (cell (grid b) (r, c) =? 0)%Z eqn:E; [discriminate|].
      apply Z.eqb_neq in E. inversion H. lia. }
    assert (G : forall g, In g (groups_of b) ->
                forall x, In x g -> x <> 0%Z /\ count g x = 1%Z).
    { intros g Hg x Hx. unfold groups_of in Hg.
      apply in_app_iff in Hg as [Hg|Hg]; [|apply in_app_iff in Hg as [Hg|Hg]].
      - unfold get_rows in Hg.
        destruct (In_nth _ _ [] Hg) as (r & Hr & <-).
        destruct (In_nth _ _ 0%Z Hx) as (c & Hc & <-).
        assert (Hr9 : (r < 9)%nat) by (destruct Hs; lia).
        rewrite shape9_row in Hc by assumption.
        destruct (K r c Hr9 Hc) as (K0 & K1 & _). auto.
      - unfold get_columns in Hg.
        destruct (In_nth _ _ [] Hg) as (c & Hc & <-).
        rewrite zip_star_length in Hc by assumption.
        rewrite zip_star_nth in Hx by assumption.
        apply in_map_iff in Hx as (rw & <- & Hrw).
        destruct (In_nth _ _ [] Hrw) as (r & Hr & <-).
        assert (Hr9 : (r < 9)%nat) by (destruct Hs; lia).
        destruct (K r c Hr9 Hc) as (K0 & _ & K2 & _). auto.
      - apply in_map_iff in Hg as (box & <- & Hbox).
        apply in_map_iff in Hx as ([r c] & <- & Hrc).
        destruct (box_coordinates_in_range box (r, c) Hbox Hrc) as [Hr Hc].
        destruct (K r c Hr Hc) as (K0 & _ & _ & K3).
        unfold box_group in K3. rewrite <- (box_unique box (r, c) Hbox Hrc) in K3.
        auto. }
    intros g Hg. split.
    + apply (NoDup_count_occ' Z.eq_dec). intros x Hx.
      destruct (G g Hg x Hx) as [_ C]. unfold count in C. lia.
    + intros H0. now destruct (G g Hg 0%Z H0).
Qed.

Lemma total_cost_zero_iff_coordinate_costs_zero_witness :
  cost_function solved_board = Ok 0%Z
  <-> forall row col, (row < 9)%nat -> (col < 9)%nat ->
                      coordinate_cost solved_board row col = Ok 0%Z.
Proof.
  apply (total_cost_zero_iff_coordinate_costs_zero solved_board).
  split; [reflexivity | repeat constructor].
Defined.

(** ** What the selector returns *)

Lemma while_true_from_board {A : Type} (Q : Board -> A -> Prop) (fuel : nat)
      (body : M World (option A)) :
  (forall s o s', body s = (Ok o, s') ->
                  board s' = board s /\ forall a, o = Some a -> Q (board s) a) ->
  forall s a s', while_true fuel body s = (Ok a, s') -> Q (board s) a.
Proof.
  intros Hb. induction fuel as [|n IH]; intros s a s' E; simpl in E.
  - discriminate.
  - unfold bind in E. destruct (body s) as [[[x|]| |] s1] eqn:Eb; try discriminate.
    + inversion E; subst. now apply (Hb s (Some a) s' Eb).
    + destruct (Hb s None s1 Eb) as [Hs _]. rewrite <- Hs. now apply IH in E.
Qed.

Lemma random_choice_board (population : list coord) (w w' : World) (c : coord) :
  random_choice population w = (Ok c, w') ->
  board w' = board w /\ In c population.
Proof.
  intros E. split; [|now apply random_choice_yields in E].
  unfold random_choice in E. destruct population as [|p l]; [discriminate|].
  unfold bind, draw, read in E. destruct (tape w); [discriminate|].
  destruct (item _ _); inversion E; reflexivity.
Qed.

Lemma random_choices_board (population : list coord) (weights : list Z)
      (w w' : World) (c : coord) :
  random_choices population weights w = (Ok c, w') ->
  board w' = board w /\ In c population.
Proof.
  intros E. split; [|now apply random_choices_yields in E].
  unfold random_choices in E.
  destruct (negb _); [discriminate|].
  destruct (rev _) as [|total l]; [discriminate|].
  destruct (negb (in_float_range total)); [discriminate|].
  destruct (total <=? 0)%Z; [discriminate|].
  unfold bind, draw, read in E. destruct (tape w); [discriminate|].
  destruct (item _ _); inversion E; reflexivity.
Qed.

(** X8: a pair returned by [select_coordinates] consists of two
    different keys of the cost dictionary; the two lie in one row, or
    else hold different values; the board is left alone. *)
Theorem select_coordinates_distinct (coord_costs : list (coord * Z))
        (w w' : World) (c1 c2 : coord) :
  select_coordinates coord_costs w = (Ok (c1, c2), w') ->
  c1 <> c2
  /\ In c1 (map fst coord_costs) /\ In c2 (map fst coord_costs)
  /\ board w' = board w
  /\ (fst c1 = fst c2
      \/ get_value (board w) (fst c1) (snd c1)
         <> get_value (board w) (fst c2) (snd c2)).
Proof.
  intros E.
  destruct (select_coordinates_from_keys coord_costs w w' c1 c2 E) as (K1 & K2 & Hb).
  assert (D : fst c1 = fst c2 /\ snd c1 <> snd c2
              \/ get_value (board w) (fst c1) (snd c1)
                 <> get_value (board w) (fst c2) (snd c2)).
  { unfold select_coordinates, forever in E. simpl in E. unfold bind at 1 in E.
    destruct (select_round _ _ w) as [[[p|]| |] w1] eqn:Er; try discriminate.
    - inversion E; subst p w1; clear E.
      unfold select_round, bind at 1 in Er.
      destruct (random_choices _ _ w) as [[[row1 col1]| |] w0] eqn:E1;
        try discriminate.
      apply random_choices_board in E1 as [Hb0 _].
      destruct (map _ (filter _ range9)) as [|rc rcs] eqn:Erow.
      + unfold bind in Er.
        destruct (uniform_different _ _ w0) as [[q| |] w2] eqn:Eu; try discriminate.
        inversion Er; subst q w2; clear Er. right.
        unfold uniform_different, forever in Eu.
        rewrite <- Hb0.
        apply (while_true_from_board
                 (fun b p => get_value b (fst (fst p)) (snd (fst p))
                             <> get_value b (fst (snd p)) (snd (snd p)))
                 _ _) with (a := (c1, c2)) in Eu; [exact Eu|].
        clear. intros s o s' Eb. unfold bind at 1 in Eb.
        destruct (random_choice _ s) as [[x| |] s1] eqn:Ex; try discriminate.
        apply random_choice_board in Ex as [Hs _].
        unfold bind, on_board, read in Eb. rewrite Hs in Eb.
        destruct (get_value (board s) (fst x) (snd x)) as [v2| |] eqn:E2;
          try discriminate.
        cbn [board tape fst snd] in Eb.
        destruct (get_value (board s) row1 col1) as [v1| |] eqn:E1;
          try discriminate.
        destruct (negb (v2 =? v1)%Z) eqn:Ne; unfold ret in Eb;
          injection Eb as Eo Es; subst o s'.
        * split; [reflexivity|]. intros a Ha. injection Ha as <-.
          cbn [fst snd]. rewrite E1, E2.
          apply negb_true_iff, Z.eqb_neq in Ne. congruence.
        * split; [reflexivity|]. discriminate.
      + rewrite <- Erow in Er. unfold bind in Er.
        destruct (random_choice _ w0) as [[x| |] w2] eqn:Ex; try discriminate.
        inversion Er; subst; clear Er. left.
        apply random_choice_yields in Ex.
        apply in_map_iff in Ex as (col & <- & Hcol).
        apply filter_In in Hcol as [_ Hcol].
        apply andb_true_iff in Hcol as [Hcol _].
        apply negb_true_iff, Nat.eqb_neq in Hcol. simpl. auto.
    - exfalso. apply select_round_never_repeats in Er. now apply Er. }
  split; [|auto].
  - intros ->. destruct D as [[_ D]|D]; now apply D.
  - repeat split; auto. destruct D as [[D _]|D]; auto.
Qed.

Lemma select_coordinates_distinct_witness :
  (0, 0)%nat <> (1, 1)%nat
  /\ In (0, 0)%nat (map fst [((0, 0)%nat, 2%Z); ((1, 1)%nat, 2%Z)])
  /\ In (1, 1)%nat (map fst [((0, 0)%nat, 2%Z); ((1, 1)%nat, 2%Z)])
  /\ board (mkWorld scratch_board []) = board (mkWorld scratch_board [0; 1]%nat)
  /\ (fst (0, 0)%nat = fst (1, 1)%nat
      \/ get_value scratch_board 0 0 <> get_value scratch_board 1 1).
Proof.
  apply (select_coordinates_distinct [((0, 0)%nat, 2%Z); ((1, 1)%nat, 2%Z)]
           (mkWorld scratch_board [0; 1]%nat) (mkWorld scratch_board [])).
  reflexivity.
Defined.

(** ** A lone modifiable coordinate *)

Lemma filter_none {A : Type} (f : A -> bool) (l : list A) :
  (forall x, In x l -> f x = false) -> filter f l = [].
Proof.
  induction l as [|x l IH]; intros H; simpl; [reflexivity|].
  rewrite (H x (or_introl eq_refl)). apply IH. intros y Hy. apply H. now right.
Qed.

Lemma random_choice_single (c : coord) (b : Board) (u : nat) (t : list nat) :
  random_choice [c] (mkWorld b (u :: t)) = (Ok c, mkWorld b t).
Proof.
  unfold random_choice, bind, draw, read. cbn [tape board length].
  rewrite Nat.mod_1_r. reflexivity.
Qed.

Lemma uniform_different_alone (c : coord) (v : Z) (b : Board) :
  get_value b (fst c) (snd c) = Ok v ->
  forall (draws : list nat) (fuel : nat),
    (length draws < fuel)%nat ->
    while_true fuel
      (coord2 <- random_choice [c] ;;
       v2 <- on_board (read (fun b => get_value b (fst coord2) (snd coord2))) ;;
       v1 <- on_board (read (fun b => get_value b (fst c) (snd c))) ;;
       if negb (v2 =? v1)%Z then ret (Some (c, coord2)) else ret None)
      (mkWorld b draws)
    = (Starved, mkWorld b []).
Proof.
  intros G. induction draws as [|u t IH]; intros fuel Hf;
    (destruct fuel as [|n]; [simpl in Hf; lia|]).
  - reflexivity.
  - cbn [while_true]. unfold bind at 1.
    assert (Hb : (coord2 <- random_choice [c] ;;
                  v2 <- on_board (read (fun b => get_value b (fst coord2) (snd coord2))) ;;
                  v1 <- on_board (read (fun b => get_value b (fst c) (snd c))) ;;
                  if negb (v2 =? v1)%Z then ret (Some (c, coord2)) else ret None)
                   (mkWorld b (u :: t))
                 = (Ok None, mkWorld b t)).
    { unfold bind at 1. rewrite random_choice_single.
      unfold bind, on_board, read. cbn [board tape fst snd].
      rewrite G. cbn [board tape]. rewrite Z.eqb_refl. reflexivity. }
    rewrite Hb. apply IH. simpl in Hf. lia.
Qed.

(** The bound of [in_float_range] is where the nearest float stops
    being finite. *)
Lemma in_float_range_boundary :
  let bound := (2 ^ 1024 - 2 ^ 970)%Z in
  in_float_range (bound - 1) = true
  /\ PrimFloat.is_infinity (nearest_float (bound - 1)) = false
  /\ in_float_range bound = false
  /\ PrimFloat.is_infinity (nearest_float bound) = true.
Proof.
  vm_compute. repeat split.
Qed.

(** X9: with a single modifiable coordinate, in range and of positive
    cost, [select_coordinates] never returns.  When the cost is beyond
    the float range, the weighted draw raises [OverflowError] at
    [cum_weights[-1] + 0.0], before any draw.  Otherwise it neither
    returns nor raises: whatever the draws, it uses them all up, because
    the second algorithm keeps drawing the one coordinate there is and
    never finds a different value. *)
Theorem select_coordinates_alone (c : coord) (k v : Z) (w : World) :
  (0 < k)%Z ->
  get_value (board w) (fst c) (snd c) = Ok v ->
  select_coordinates [(c, k)] w
  = if in_float_range k then (Starved, mkWorld (board w) [])
    else (Raise OverflowError, w).
Proof.
  intros Hk G. destruct w as [b draws]. cbn [board] in *.
  assert (Hk' : (k <=? 0)%Z = false) by (apply Z.leb_gt; lia).
  assert (E1 : random_choices [c] [k] (mkWorld b draws)
               = if in_float_range k then
                   match draws with
                   | [] => (Starved, mkWorld b [])
                   | u :: t => (Ok c, mkWorld b t)
                   end
                 else (Raise OverflowError, mkWorld b draws)).
  { unfold random_choices. cbn [accumulate length rev app Nat.eqb negb].
    rewrite Z.add_0_l. destruct (in_float_range k); [|reflexivity].
    cbn [negb]. rewrite Hk'. unfold bind, draw, read. cbn [tape board].
    destruct draws; reflexivity. }
  unfold select_coordinates, forever. cbn [map fst snd tape].
  cbn [while_true]. unfold bind at 1. unfold select_round. unfold bind at 1.
  rewrite E1. destruct (in_float_range k); [|reflexivity].
  destruct draws as [|u t]; [reflexivity|].
  destruct c as [row1 col1].
  cbv iota. cbv beta.
  match goal with
  | |- context [filter ?f range9] =>
      assert (Erow : filter f range9 = [])
  end.
  { apply filter_none. intros col _.
    cbn [existsb]. unfold coord_eqb. cbn [fst snd].
    rewrite Nat.eqb_refl, orb_false_r. cbn [andb].
    destruct (col =? col1)%nat; reflexivity. }
  rewrite Erow. cbn [map]. unfold bind at 1.
  unfold uniform_different, forever. cbn [tape].
  rewrite (uniform_different_alone (row1, col1) v b G t); [reflexivity|].
  cbn [length]. lia.
Qed.

Lemma select_coordinates_alone_witness :
  select_coordinates [((0, 0)%nat, 2%Z)] (mkWorld one_blank [3; 1; 4; 1; 5]%nat)
  = (Starved, mkWorld one_blank [])
  /\ select_coordinates [((0, 0)%nat, 10 ^ 400)%Z]
                        (mkWorld one_blank [3; 1; 4; 1; 5]%nat)
     = (Raise OverflowError, mkWorld one_blank [3; 1; 4; 1; 5]%nat).
Proof.
  split.
  - apply (select_coordinates_alone (0, 0)%nat 2%Z 0%Z
             (mkWorld one_blank [3; 1; 4; 1; 5]%nat)).
    + lia.
    + reflexivity.
  - apply (select_coordinates_alone (0, 0)%nat (10 ^ 400)%Z 0%Z
             (mkWorld one_blank [3; 1; 4; 1; 5]%nat)).
    + lia.
    + reflexivity.
Defined.

(** ** What the solver returns *)

Lemma get_modifiable_coordinates_mask (b b' : Board) :
  fixed_cells b' = fixed_cells b ->
  get_modifiable_coordinates b' = get_modifiable_coordinates b.
Proof.
  intros H. unfold get_modifiable_coordinates, is_cell_fixed. now rewrite H.
Qed.

Lemma coord_costs_keys (b : Board) (mc : list coord) (cc : list (coord * Z)) :
  coord_costs_of b mc = Ok cc -> map fst cc = mc.
Proof.
  unfold coord_costs_of. revert cc; induction mc as [|rc mc IH]; intros cc; simpl.
  - intros E; inversion E; reflexivity.
  - destruct (coordinate_cost b (fst rc) (snd rc)); simpl; try discriminate.
    destruct (omap _ mc) as [rest| |]; simpl; try discriminate.
    intros E; inversion E; subst. simpl. f_equal. now apply IH.
Qed.

Section Result.

Variable pop_choice : list Z -> nat.
Variable Temp : Type.
Variable Tmul : Temp -> Temp -> Temp.
Variable metropolis : nat -> Z -> Temp -> outcome bool.

Lemma propose_tracks (mc : list coord) (c1 c2 : coord) (st : annealing Temp)
      (w w' : World) (cost : Z) :
  tracks mc w st ->
  In c1 mc -> In c2 mc ->
  propose metropolis c1 c2 st w = (Ok cost, w') ->
  well_formed (board w')
  /\ fixed_cells (board w') = fixed_cells (board w)
  /\ cost_function (board w') = Ok cost.
Proof.
  intros (Hwf & Emc & Hcost) H1 H2 E.
  pose proof (propose_inv (same_shape (board w)) (store_same_shape (board w))
                Temp metropolis c1 c2 st w (same_shape_refl (board w))) as Hsh.
  rewrite E in Hsh. simpl in Hsh.
  pose proof (same_shape_well_formed _ _ Hsh Hwf) as Hwf'.
  split; [exact Hwf'|]. split; [apply Hsh|].
  destruct Hwf as [Hg Hm].
  destruct (get_modifiable_coordinates_in_range _ _ _ Emc H1) as [R1 K1].
  destruct (get_modifiable_coordinates_in_range _ _ _ Emc H2) as [R2 K2].
  pose proof (get_modifiable_coordinates_modifiable _ _ _ Emc H1) as M1.
  pose proof (get_modifiable_coordinates_modifiable _ _ _ Emc H2) as M2.
  apply is_cell_fixed_Ok in M1 as [F1 M1], M2 as [F2 M2].
  replace (fst c1, snd c1) with c1 in M1 by now destruct c1.
  replace (fst c2, snd c2) with c2 in M2 by now destruct c2.
  pose proof (inside_shape9 (grid (board w)) _ _ Hg R1 K1) as G1.
  pose proof (inside_shape9 (grid (board w)) _ _ Hg R2 K2) as G2.
  set (b := board w) in *.
  set (bs := mkBoard (swapped b c1 c2) (fixed_cells b)).
  assert (Es : swap_values c1 c2 b = (Ok tt, bs)) by now apply swap_values_eq.
  assert (Hgs : shape9 (grid bs)).
  { apply (shape9_same_lengths (grid b)); simpl; auto.
    - apply swapped_length.
    - intros r. apply swapped_row_length. }
  pose proof (cost_function_groups bs Hgs) as Ec.
  assert (Eb : swap_values c1 c2 bs = (Ok tt, b)).
  { unfold bs. apply swap_values_back; auto. now rewrite M1, M2. }
  unfold propose, bind, on_board, read, draw in E; fold b in E.
  rewrite Es in E. cbn [board tape] in E. rewrite Ec in E.
  destruct (sum (map group_cost (groups_of bs)) - current_cost st <? 0)%Z.
  - inversion E; subst. exact Ec.
  - destruct (tape w) as [|u t]; [discriminate|]. cbn [board tape] in E.
    destruct (metropolis u _ (T st)) as [[|]| |]; try discriminate.
    + inversion E; subst. exact Ec.
    + cbn [board tape] in E. rewrite Eb in E. inversion E; subst. exact Hcost.
Qed.

Lemma cool_cost (T_initial : Temp) (max_stagnation : Z) (decay : Temp)
      (st : annealing Temp) (cost : Z) :
  current_cost (cool Tmul T_initial max_stagnation decay st cost) = cost
  /\ iterations (cool Tmul T_initial max_stagnation decay st cost)
     = (iterations st + 1)%Z.
Proof.
  unfold cool. destruct (cost <? min_cost st)%Z;
    match goal with |- context [(?a >=? ?b)%Z] => destruct (a >=? b)%Z end;
    split; reflexivity.
Qed.

Lemma iteration_tracks (T_initial : Temp) (max_stagnation : Z) (decay : Temp)
      (mc : list coord) (st st' : annealing Temp) (w w' : World) :
  tracks mc w st ->
  iteration Tmul metropolis T_initial max_stagnation decay mc st w = (Ok st', w') ->
  tracks mc w' st' /\ iterations st' = (iterations st + 1)%Z.
Proof.
  intros Htr E. unfold iteration in E. unfold bind at 1 in E.
  unfold on_board, read in E.
  destruct (coord_costs_of (board w) mc) as [cc| |] eqn:Ecc; try discriminate.
  replace (mkWorld (board w) (tape w)) with w in E by now destruct w.
  apply coord_costs_keys in Ecc.
  unfold bind at 1 in E.
  destruct (select_coordinates cc w) as [[[c1 c2]| |] w1] eqn:Es; try discriminate.
  destruct (select_coordinates_from_keys cc w w1 c1 c2 Es) as (K1 & K2 & Hb).
  rewrite Ecc in K1, K2.
  unfold bind at 1 in E.
  destruct (propose metropolis c1 c2 st w1) as [[cost| |] w2] eqn:Ep;
    try discriminate.
  inversion E; subst st' w2; clear E.
  assert (Htr1 : tracks mc w1 st).
  { destruct Htr as (A & B & C). unfold tracks. now rewrite Hb. }
  destruct (propose_tracks mc c1 c2 st w1 w' cost Htr1 K1 K2 Ep) as (A & B & C).
  destruct (cool_cost T_initial max_stagnation decay st cost) as [Ecost Eit].
  split; [|exact Eit].
  split; [exact A|]. split.
  - rewrite (get_modifiable_coordinates_mask (board w1) (board w') B).
    apply Htr1.
  - now rewrite Ecost.
Qed.

Lemma loop_tracks (T_initial : Temp) (max_iterations max_stagnation : Z)
      (decay : Temp) (mc : list coord) :
  forall (n : nat) (st st' : annealing Temp) (w w' : World),
    tracks mc w st ->
    (0 <= iterations st <= Z.max 0 max_iterations)%Z ->
    loop Tmul metropolis n T_initial max_iterations max_stagnation decay mc st w
    = (Ok st', w') ->
    tracks mc w' st'
    /\ ((current_cost st' >? 0)%Z && (iterations st' <? max_iterations)%Z) = false
    /\ (0 <= iterations st' <= Z.max 0 max_iterations)%Z.
Proof.
  induction n as [|n IH]; intros st st' w w' Htr Hit E; simpl in E;
    destruct ((current_cost st >? 0)%Z && (iterations st <? max_iterations)%Z)
             eqn:Econd; try discriminate;
    try (inversion E; subst; auto; fail).
  unfold bind in E.
  destruct (iteration Tmul metropolis T_initial max_stagnation decay mc st w)
    as [[st1| |] w1] eqn:Ei; try discriminate.
  destruct (iteration_tracks _ _ _ _ _ _ _ _ Htr Ei) as [Htr1 Hit1].
  apply (IH st1 st' w1 w' Htr1); [|exact E].
  apply andb_true_iff in Econd as [_ Hlt]. apply Z.ltb_lt in Hlt. lia.
Qed.

Lemma anneal_tracks (T0 : Temp) (max_iterations max_stagnation : Z) (decay : Temp)
      (w w' : World) (st : annealing Temp) :
  well_formed (board w) ->
  anneal pop_choice Tmul metropolis T0 max_iterations max_stagnation decay w
  = (Ok st, w') ->
  well_formed (board w')
  /\ cost_function (board w') = Ok (current_cost st)
  /\ (0 <= current_cost st)%Z
  /\ (current_cost st = 0%Z \/ iterations st = Z.max 0 max_iterations).
Proof.
  intros Hwf E. unfold anneal in E.
  destruct (initialise_board_total pop_choice (board w) Hwf)
    as (b1 & Ei & Hm & Hwf1).
  unfold bind at 1, on_board in E. rewrite Ei in E.
  unfold bind at 1, on_board, read in E. cbn [board tape] in E.
  pose proof (cost_function_groups b1 (proj1 Hwf1)) as Ec. rewrite Ec in E.
  unfold bind at 1, on_board, read in E. cbn [board tape] in E.
  destruct (get_modifiable_coordinates_total b1 (proj2 Hwf1)) as (mc & Emc).
  rewrite Emc in E.
  assert (Htr : tracks mc (mkWorld b1 (tape w))
                  (mkAnnealing T0 (sum (map group_cost (groups_of b1)))
                               (sum (map group_cost (groups_of b1))) 0 0))
    by (repeat split; try apply Hwf1; assumption).
  assert (Hit0 : (0 <= iterations
                        (mkAnnealing T0 (sum (map group_cost (groups_of b1)))
                                     (sum (map group_cost (groups_of b1))) 0 0)
                  <= Z.max 0 max_iterations)%Z) by (cbn [iterations]; lia).
  destruct (loop_tracks T0 max_iterations max_stagnation decay mc _ _ st _ w'
              Htr Hit0 E)
    as ((A & _ & C) & Hexit & Hit).
  split; [exact A|]. split; [exact C|].
  assert (Hn : (0 <= current_cost st)%Z).
  { rewrite (cost_function_groups (board w') (proj1 A)) in C.
    inversion C as [C']. apply sum_nonneg. intros x Hx.
    apply in_map_iff in Hx as (g & <- & _). apply group_cost_nonneg. }
  split; [exact Hn|].
  apply andb_false_iff in Hexit as [H|H].
  - left. rewrite Z.gtb_ltb in H. apply Z.ltb_ge in H. lia.
  - right. apply Z.ltb_ge in H. lia.
Qed.

(** X10: when [solver] returns [True] on a 9x9 board, the board it leaves
    has cost 0, is valid, has no blank, and agrees with the board it was
    given on the mask and on every fixed cell. *)
Theorem solver_true_is_solved (T0 : Temp) (max_iterations max_stagnation : Z)
        (decay : Temp) (w w' : World) :
  well_formed (board w) ->
  solver pop_choice Tmul metropolis T0 max_iterations max_stagnation decay w
  = (Ok true, w') ->
  cost_function (board w') = Ok 0%Z
  /\ is_valid (board w') = Ok true
  /\ (forall row col, (row < 9)%nat -> (col < 9)%nat ->
                      get_value (board w') row col <> Ok 0%Z)
  /\ fixed_cells (board w') = fixed_cells (board w)
  /\ (forall row col, is_cell_fixed (board w) row col = Ok true ->
                      get_value (board w') row col = get_value (board w) row col).
Proof.
  intros Hwf E.
  pose proof (solver_keeps pop_choice Temp Tmul metropolis (board w) T0
                max_iterations max_stagnation decay w (protects_refl _)) as [Hm Hv].
  rewrite E in Hm, Hv. simpl in Hm, Hv.
  unfold solver, bind in E.
  destruct (anneal _ _ _ _ _ _ _ w) as [[st| |] w1] eqn:Ea; try discriminate.
  unfold ret in E. injection E as Ez Ew. subst w1.
  destruct (anneal_tracks _ _ _ _ _ _ _ Hwf Ea) as (Hwf' & Hc & _).
  apply Z.eqb_eq in Ez. rewrite Ez in Hc.
  split; [exact Hc|].
  destruct (proj1 (total_cost_zero (board w') (proj1 Hwf')) Hc) as [V F].
  split; [exact V|]. split; [exact F|]. split; [exact Hm|]. exact Hv.
Qed.

(** X11: when [solver] returns [False] on a 9x9 board, the cost of the
    board it leaves is positive and it ran the full budget: the round
    count is [max_iterations], or 0 for a negative budget. *)
Theorem solver_false_is_exhausted (T0 : Temp) (max_iterations max_stagnation : Z)
        (decay : Temp) (w w' : World) :
  well_formed (board w) ->
  solver pop_choice Tmul metropolis T0 max_iterations max_stagnation decay w
  = (Ok false, w') ->
  exists st,
    anneal pop_choice Tmul metropolis T0 max_iterations max_stagnation decay w
    = (Ok st, w')
    /\ cost_function (board w') = Ok (current_cost st)
    /\ (0 < current_cost st)%Z
    /\ iterations st = Z.max 0 max_iterations.
Proof.
  intros Hwf E. unfold solver, bind in E.
  destruct (anneal _ _ _ _ _ _ _ w) as [[st| |] w1] eqn:Ea; try discriminate.
  unfold ret in E. injection E as Ez Ew. subst w1.
  destruct (anneal_tracks _ _ _ _ _ _ _ Hwf Ea) as (_ & Hc & Hn & Hx).
  apply Z.eqb_neq in Ez.
  exists st. split; [reflexivity|]. split; [exact Hc|].
  split; [lia|]. destruct Hx; [contradiction | assumption].
Qed.

End Result.

Lemma solver_true_is_solved_witness :
  cost_function (mkBoard solved_grid (fixed_cells two_swapped)) = Ok 0%Z
  /\ is_valid (mkBoard solved_grid (fixed_cells two_swapped)) = Ok true
  /\ (forall row col, (row < 9)%nat -> (col < 9)%nat ->
                      get_value (mkBoard solved_grid (fixed_cells two_swapped))
                                row col <> Ok 0%Z)
  /\ fixed_cells (mkBoard solved_grid (fixed_cells two_swapped))
     = fixed_cells two_swapped
  /\ (forall row col, is_cell_fixed two_swapped row col = Ok true ->
                      get_value (mkBoard solved_grid (fixed_cells two_swapped))
                                row col
                      = get_value two_swapped row col).
Proof.
  apply (solver_true_is_solved pop_smallest unit no_temp refuse tt 10 1500 tt
           (mkWorld two_swapped [0; 0]%nat)
           (mkWorld (mkBoard solved_grid (fixed_cells two_swapped)) [])).
  - split; split; try reflexivity; repeat constructor.
  - reflexivity.
Defined.

Lemma solver_false_is_exhausted_witness :
  exists st,
    anneal pop_smallest no_temp refuse tt 1 1500 tt
           (mkWorld lone_blank [0; 2; 7]%nat)
    = (Ok st, snd (solver pop_smallest no_temp refuse tt 1 1500 tt
                          (mkWorld lone_blank [0; 2; 7]%nat)))
    /\ cost_function
         (board (snd (solver pop_smallest no_temp refuse tt 1 1500 tt
                             (mkWorld lone_blank [0; 2; 7]%nat))))
       = Ok (current_cost st)
    /\ (0 < current_cost st)%Z
    /\ iterations st = Z.max 0 1.
Proof.
  apply (solver_false_is_exhausted pop_smallest unit no_temp refuse tt 1 1500 tt
           (mkWorld lone_blank [0; 2; 7]%nat)).
  - split; split; try reflexivity; repeat constructor.
  - vm_compute. reflexivity.
Defined.

(** ** A grid without a blank *)

Lemma select_coordinates_nothing (w : World) :
  select_coordinates [] w = (Raise IndexError, w).
Proof. reflexivity. Qed.

Section NoBlank.

Variable pop_choice : list Z -> nat.
Variable Temp : Type.
Variable Tmul : Temp -> Temp -> Temp.
Variable metropolis : nat -> Z -> Temp -> outcome bool.

(** X12: on a board built from a 9x9 grid without a blank whose cost is
    not 0, the solver with a positive budget raises [IndexError] in its
    first round, without a draw and without touching the board: there
    is no modifiable coordinate to choose from. *)
Theorem solver_without_blank_raises (g : list (list Z)) (draws : list nat)
        (T0 : Temp) (max_iterations max_stagnation : Z) (decay : Temp) :
  shape9 g ->
  (forall row col, (row < 9)%nat -> (col < 9)%nat -> cell g (row, col) <> 0%Z) ->
  cost_function (Board_init (Some g)) <> Ok 0%Z ->
  (0 < max_iterations)%Z ->
  solver pop_choice Tmul metropolis T0 max_iterations max_stagnation decay
         (mkWorld (Board_init (Some g)) draws)
  = (Raise IndexError, mkWorld (Board_init (Some g)) draws).
Proof.
  intros Hs Hfull Hcost Hmax.
  pose proof (fresh_well_formed g Hs) as Hwf.
  rewrite (Board_init_fresh g (shape9_nonempty g Hs)) in *.
  set (b0 := mkBoard g (map (map truthy) g)) in *.
  assert (Hfull' : forall row col, (row < 9)%nat -> (col < 9)%nat ->
                                   get_value b0 row col <> Ok 0%Z).
  { intros r c Hr Hc. rewrite (get_value_cell b0 r c (proj1 Hwf) Hr Hc).
    intros E. inversion E as [E']. now apply (Hfull r c Hr Hc). }
  pose proof (initialise_board_no_blank pop_choice b0 Hwf Hfull') as Ei.
  pose proof (cost_function_groups b0 (proj1 Hwf)) as Ec.
  assert (Hpos : (0 < sum (map group_cost (groups_of b0)))%Z).
  { assert (0 <= sum (map group_cost (groups_of b0)))%Z.
    { apply sum_nonneg. intros x Hx. apply in_map_iff in Hx as (y & <- & _).
      apply group_cost_nonneg. }
    assert (sum (map group_cost (groups_of b0)) <> 0%Z) by congruence.
    lia. }
  assert (Emc : get_modifiable_coordinates b0 = Ok []).
  { rewrite (get_modifiable_coordinates_exact b0 (proj2 Hwf)). f_equal.
    apply filter_none. intros [r c] Hin.
    apply all_coords_In in Hin as [Hr Hc]. simpl in Hr, Hc. unfold b0; simpl.
    rewrite flag_truthy by now apply inside_shape9.
    unfold truthy. rewrite negb_involutive.
    apply Z.eqb_neq. now apply Hfull. }
  unfold solver, anneal, bind, on_board, read. cbn [board tape].
  rewrite Ei. cbn [board tape]. rewrite Ec. cbn [board tape]. rewrite Emc.
  destruct (Z.to_nat max_iterations) as [|n] eqn:En; [lia|].
  simpl loop. cbn [current_cost iterations].
  assert (Econd : ((sum (map group_cost (groups_of b0)) >? 0)%Z
                   && (0 <? max_iterations)%Z) = true).
  { apply andb_true_iff. split; [rewrite Z.gtb_ltb|]; apply Z.ltb_lt; lia. }
  rewrite Econd. unfold bind, iteration, bind, on_board, read. reflexivity.
Qed.

End NoBlank.


Lemma solver_without_blank_raises_witness :
  solver pop_smallest no_temp refuse tt 5 1500 tt
         (mkWorld (Board_init (Some clash_grid)) [4; 2]%nat)
  = (Raise IndexError, mkWorld (Board_init (Some clash_grid)) [4; 2]%nat).
Proof.
  apply (solver_without_blank_raises pop_smallest unit no_temp refuse clash_grid).
  - split; [reflexivity | repeat constructor].
  - intros row col Hr Hc.
    do 9 (destruct row as [|row];
          [do 9 (destruct col as [|col]; [discriminate|]); lia|]).
    lia.
  - vm_compute. discriminate.
  - lia.
Defined.
